(** * A shallow embedding of [prolog_text_parser.cpp]

    The program keeps a table of ground facts ([PrologDatabase]), fills it
    from a handful of English sentence shapes ([TextParser]) and answers a
    handful of question shapes by looking the table up ([QueryEngine]).

    The embedding follows the C++ text function by function.  Strings are
    [string], [vector<string>] is [list string], the [map] from predicate
    names to fact lists is a [gmap], [size_t] values are integers taken
    modulo [2^64], and the three effects of the program (the fact table,
    the text written to [cout], and the ways a run can go wrong) are
    threaded through a small state-and-fault monad. *)

From Stdlib Require Import ZArith Ascii String Bool Lia.
From stdpp Require Import gmap strings list fin_maps sorting.

Local Open Scope Z_scope.

(** ** [size_t] arithmetic *)

Definition size_t_modulus : Z := 2 ^ 64.

(** [string::npos], the largest [size_t]. *)
Definition npos : Z := size_t_modulus - 1.

Definition size_t_add (a b : Z) : Z := (a + b) mod size_t_modulus.
Definition size_t_sub (a b : Z) : Z := (a - b) mod size_t_modulus.

(** [v.size()] of a vector and of a string. *)
Definition vsize {A} (v : list A) : Z := Z.of_nat (length v).
Definition ssize (s : string) : Z := Z.of_nat (String.length s).

(** ** Characters: the default "C" locale of [<cctype>] *)

Definition code (c : ascii) : Z := Z.of_N (N_of_ascii c).

Definition tolower (c : ascii) : ascii :=
  if (65 <=? code c) && (code c <=? 90)
  then ascii_of_N (Z.to_N (code c + 32))
  else c.

Definition ispunct (c : ascii) : bool :=
  ((33 <=? code c) && (code c <=? 47))
  || ((58 <=? code c) && (code c <=? 64))
  || ((91 <=? code c) && (code c <=? 96))
  || ((123 <=? code c) && (code c <=? 126)).

Definition isspace (c : ascii) : bool :=
  (code c =? 32) || ((9 <=? code c) && (code c <=? 13)).

(** The character set [" \t\n\r"] used by the trimming code. *)
Definition is_trim_char (c : ascii) : bool :=
  (code c =? 32) || (code c =? 9) || (code c =? 10) || (code c =? 13).

(** ** [std::string] operations *)

(** [transform(begin, end, begin, ::tolower)] on a copy. *)
Fixpoint toLower (str : string) : string :=
  match str with
  | EmptyString => EmptyString
  | String c rest => String (tolower c) (toLower rest)
  end.

(** [str.back()] and [str.pop_back()] on a non-empty string. *)
Fixpoint back (str : string) : option ascii :=
  match str with
  | EmptyString => None
  | String c EmptyString => Some c
  | String _ rest => back rest
  end.

Fixpoint pop_back (str : string) : string :=
  match str with
  | EmptyString => EmptyString
  | String _ EmptyString => EmptyString
  | String c rest => String c (pop_back rest)
  end.

(** The loop [while (!str.empty() && ispunct(str.back())) str.pop_back();]
    Each turn removes a character, so [String.length str] turns suffice. *)
Fixpoint removePunctuation_loop (turns : nat) (str : string) : string :=
  match turns with
  | O => str
  | S turns' =>
      match back str with
      | Some c => if ispunct c then removePunctuation_loop turns' (pop_back str)
                  else str
      | None => str
      end
  end.

Definition removePunctuation (str : string) : string :=
  removePunctuation_loop (String.length str) str.

(** [hay.find(needle, pos)]: the least index [i >= pos] at which [needle]
    occurs, or [npos].  [find_here] walks the suffix that starts at index
    [i]. *)
Fixpoint find_here (needle suffix : string) (i : Z) : Z :=
  if String.prefix needle suffix then i
  else match suffix with
       | EmptyString => npos
       | String _ rest => find_here needle rest (i + 1)
       end.

Fixpoint drop_chars (n : nat) (s : string) : option string :=
  match n, s with
  | O, _ => Some s
  | S _, EmptyString => None
  | S n', String _ rest => drop_chars n' rest
  end.

Definition find_from (needle hay : string) (pos : Z) : Z :=
  if ssize hay <? pos then npos
  else match drop_chars (Z.to_nat pos) hay with
       | Some suffix => find_here needle suffix pos
       | None => npos
       end.

Definition find (needle hay : string) : Z := find_from needle hay 0.

Fixpoint take_chars (n : nat) (s : string) : string :=
  match n, s with
  | O, _ => EmptyString
  | S _, EmptyString => EmptyString
  | S n', String c rest => String c (take_chars n' rest)
  end.

(** [str.find_first_not_of(" \t\n\r")]: the index of the first character
    outside the set, or [npos]; [i] is the index of the head of [suffix]. *)
Fixpoint find_first_not_of_here (suffix : string) (i : Z) : Z :=
  match suffix with
  | EmptyString => npos
  | String c rest =>
      if is_trim_char c then find_first_not_of_here rest (i + 1) else i
  end.

Definition find_first_not_of (str : string) : Z :=
  find_first_not_of_here str 0.

(** [str.find_last_not_of(" \t\n\r")]: the index of the last character
    outside the set, or [npos]; [last] is the answer for the characters
    before [suffix]. *)
Fixpoint find_last_not_of_here (suffix : string) (i last : Z) : Z :=
  match suffix with
  | EmptyString => last
  | String c rest =>
      find_last_not_of_here rest (i + 1) (if is_trim_char c then last else i)
  end.

Definition find_last_not_of (str : string) : Z :=
  find_last_not_of_here str 0 npos.

(** ** [std::stringstream] reads

    A stream is the text not yet read.  [stream_extract] is
    [ss >> word]: skip white space, then take characters up to the next
    white space; it fails when nothing is left.  [getline] is
    [getline(ss, token, delimiter)]: it fails only at the very end of the
    text, and consumes the delimiter it stops at. *)

Fixpoint skip_spaces (ss : string) : string :=
  match ss with
  | EmptyString => EmptyString
  | String c rest => if isspace c then skip_spaces rest else ss
  end.

Fixpoint read_word (ss : string) : string * string :=
  match ss with
  | EmptyString => (EmptyString, EmptyString)
  | String c rest =>
      if isspace c then (EmptyString, ss)
      else let '(w, ss') := read_word rest in (String c w, ss')
  end.

Definition stream_extract (ss : string) : option (string * string) :=
  match skip_spaces ss with
  | EmptyString => None
  | unread => Some (read_word unread)
  end.

Fixpoint read_line (delimiter : ascii) (ss : string) : string * string :=
  match ss with
  | EmptyString => (EmptyString, EmptyString)
  | String c rest =>
      if Ascii.eqb c delimiter then (EmptyString, rest)
      else let '(t, ss') := read_line delimiter rest in (String c t, ss')
  end.

Definition getline (ss : string) (delimiter : ascii) : option (string * string) :=
  match ss with
  | EmptyString => None
  | _ => Some (read_line delimiter ss)
  end.

(** [token.erase(0, token.find_first_not_of(" \t\n\r"))]: when every
    character is in the set the search gives [npos] and the whole token
    goes. *)
Fixpoint erase_leading (token : string) : string :=
  match token with
  | EmptyString => EmptyString
  | String c rest => if is_trim_char c then erase_leading rest else token
  end.

(** [token.erase(token.find_last_not_of(" \t\n\r") + 1)]: when the
    search gives [npos] the sum wraps to 0 and the whole token goes. *)
Fixpoint erase_trailing (token : string) : string :=
  match token with
  | EmptyString => EmptyString
  | String c rest =>
      match erase_trailing rest with
      | EmptyString => if is_trim_char c then EmptyString else String c EmptyString
      | kept => String c kept
      end
  end.

(** The tokens pushed by [while (getline(ss, token, delimiter)) {...}] in
    [TextParser::split]; the second component is the stream that is left
    when the loop stops. *)
Fixpoint split_loop (turns : nat) (ss : string) (delimiter : ascii)
    (tokens : list string) : list string * string :=
  match turns with
  | O => (tokens, ss)
  | S turns' =>
      match getline ss delimiter with
      | None => (tokens, ss)
      | Some (token, ss') =>
          let token := erase_leading token in
          let token := erase_trailing token in
          split_loop turns' ss' delimiter
            (if String.eqb token EmptyString then tokens else tokens ++ [token])
      end
  end.

Definition split (str : string) (delimiter : ascii) : list string :=
  fst (split_loop (S (String.length str)) str delimiter []).

(** The words pushed by
    [while (ss >> word) words.push_back(removePunctuation(word));]
    in [QueryEngine::processQuery]. *)
Fixpoint read_words_loop (turns : nat) (ss : string) (words : list string)
    : list string * string :=
  match turns with
  | O => (words, ss)
  | S turns' =>
      match stream_extract ss with
      | None => (words, ss)
      | Some (word, ss') =>
          read_words_loop turns' ss' (words ++ [removePunctuation word])
      end
  end.

Definition read_words (text : string) : list string :=
  fst (read_words_loop (S (String.length text)) text []).

(** [string object; ss >> object;] leaves [object] empty when nothing can
    be read. *)
Definition read_first (text : string) : string :=
  match stream_extract text with
  | Some (word, _) => word
  | None => EmptyString
  end.

(** ** Constant pieces of text *)

Definition endl : string := String (ascii_of_nat 10) EmptyString.
Definition dquote : string := String (ascii_of_nat 34) EmptyString.
Definition wildcard : string := "?".

(** ** The state of a run and the monad that threads it

    [facts] is the private member of [PrologDatabase]; [cout] lists the
    pieces of text written so far, one per output statement.  A run can go
    wrong in two ways: a vector is indexed outside its bounds (undefined
    behaviour in C++), or [substr] throws [std::out_of_range]. *)

Record World := mkWorld {
  facts : gmap string (list (list string));
  cout : list string
}.

Inductive fault : Type :=
| undefined_index
| out_of_range.

Inductive outcome (A : Type) : Type :=
| Ok (a : A) (w : World)
| Fault (f : fault).

Arguments Ok {A} a w.
Arguments Fault {A} f.

Definition M (A : Type) : Type := World -> outcome A.

Definition ret {A} (a : A) : M A := fun w => Ok a w.

Definition bind {A B} (m : M A) (k : A -> M B) : M B :=
  fun w => match m w with
           | Ok a w' => k a w'
           | Fault f => Fault f
           end.

Definition throw {A} (f : fault) : M A := fun _ => Fault f.

Notation "'do' x <- m ; k" := (bind m (fun x => k))
  (at level 10, x name, m at level 100, k at level 200).
Notation "m ;; k" := (bind m (fun _ => k))
  (at level 100, k at level 200, right associativity).

(** [cout << ...;] *)
Definition print (text : string) : M unit :=
  fun w => Ok tt (mkWorld (facts w) (cout w ++ [text])).

(** [v[i]] for a [size_t] index.  A loop counter [i] that is tested by
    [i < v.size()] before each turn stays below [2^64 - 1], so its [i++]
    is written [i + 1]; every other sum or difference of indices goes
    through [size_t_add] and [size_t_sub]. *)
Definition at_index {A} (v : list A) (i : Z) : M A :=
  if (0 <=? i) && (i <? vsize v)
  then match v !! Z.to_nat i with
       | Some x => ret x
       | None => throw undefined_index
       end
  else throw undefined_index.

(** [str.substr(pos, count)] throws when [pos > size()]. *)
Definition substr (str : string) (pos count : Z) : M string :=
  if ssize str <? pos then throw out_of_range
  else match drop_chars (Z.to_nat pos) str with
       | Some suffix =>
           ret (take_chars (Z.to_nat (Z.min count (ssize str - pos))) suffix)
       | None => throw out_of_range
       end.

(** [facts.find(pred) != facts.end()] *)
Definition facts_find (pred : string) : M bool :=
  fun w => Ok (bool_decide (is_Some (facts w !! pred))) w.

(** [facts[pred]]: [operator[]] of [std::map] first inserts an empty
    vector when the key is absent. *)
Definition facts_subscript (pred : string) : M (list (list string)) :=
  fun w => match facts w !! pred with
           | Some v => Ok v w
           | None => Ok [] (mkWorld (<[pred := []]> (facts w)) (cout w))
           end.

(** [facts[pred].push_back(arguments)] *)
Definition facts_push_back (pred : string) (arguments : list string) : M unit :=
  do v <- facts_subscript pred;
  fun w => Ok tt (mkWorld (<[pred := v ++ [arguments]]> (facts w)) (cout w)).

Definition facts_empty : M bool :=
  fun w => Ok (bool_decide (facts w = ∅)) w.

(** The pairs of the map in the order a [std::map<string, ...>] is
    traversed: by increasing key. *)
Definition facts_in_order : M (list (string * list (list string))) :=
  fun w => Ok (merge_sort (fun a b => String.le a.1 b.1) (map_to_list (facts w))) w.

(** ** [PrologDatabase] *)

(** The private helper [trim]; no other function calls it. *)
Definition trim (str : string) : M string :=
  let start := find_first_not_of str in
  let end_ := find_last_not_of str in
  if start =? npos then ret EmptyString
  else substr str start (size_t_add (size_t_sub end_ start) 1).

(** The loop that prints the arguments of a fact, separated by [", "];
    [i] is the loop counter and [turns] the number of turns still to run. *)
Fixpoint print_arguments (arguments : list string) (i : Z) (turns : nat) : M unit :=
  match turns with
  | O => ret tt
  | S turns' =>
      do a <- at_index arguments i;
      print a ;;
      (if i <? size_t_sub (vsize arguments) 1 then print ", " else ret tt) ;;
      print_arguments arguments (i + 1) turns'
  end.

Definition addFact (predicate : string) (arguments : list string) : M unit :=
  let pred := toLower predicate in
  facts_push_back pred arguments ;;
  print ("Added fact: " +:+ predicate +:+ "(") ;;
  print_arguments arguments 0 (length arguments) ;;
  print (")" +:+ endl).

(** The inner loop of [query]: [ret false] is the [break] after
    [matches = false]. *)
Fixpoint query_match (arguments fact : list string) (i : Z) (turns : nat) : M bool :=
  match turns with
  | O => ret true
  | S turns' =>
      do a <- at_index arguments i;
      if negb (String.eqb a wildcard) then
        do f <- at_index fact i;
        if negb (String.eqb (toLower a) (toLower f)) then ret false
        else query_match arguments fact (i + 1) turns'
      else query_match arguments fact (i + 1) turns'
  end.

(** The outer loop of [query] over the facts still [pending]. *)
Fixpoint query_scan (arguments : list string) (pending : list (list string))
    (results : list (list string)) : M (list (list string)) :=
  match pending with
  | [] => ret results
  | fact :: rest =>
      if negb (vsize fact =? vsize arguments)
      then query_scan arguments rest results
      else
        do matches <- query_match arguments fact 0 (length arguments);
        query_scan arguments rest (if matches then results ++ [fact] else results)
  end.

Definition query (predicate : string) (arguments : list string)
    : M (list (list string)) :=
  let pred := toLower predicate in
  do known <- facts_find pred;
  if negb known then ret []
  else
    do stored <- facts_subscript pred;
    query_scan arguments stored [].

Fixpoint print_facts (name : string) (stored : list (list string)) : M unit :=
  match stored with
  | [] => ret tt
  | fact :: rest =>
      print ("  " +:+ name +:+ "(") ;;
      print_arguments fact 0 (length fact) ;;
      print (")" +:+ endl) ;;
      print_facts name rest
  end.

Fixpoint print_predicates (entries : list (string * list (list string))) : M unit :=
  match entries with
  | [] => ret tt
  | predicate :: rest =>
      print (endl +:+ "Predicate: " +:+ predicate.1 +:+ endl) ;;
      print_facts predicate.1 predicate.2 ;;
      print_predicates rest
  end.

Definition printDatabase : M unit :=
  print (endl +:+ "========== PROLOG DATABASE ==========" +:+ endl) ;;
  do empty <- facts_empty;
  if empty then print ("Database is empty." +:+ endl)
  else
    do entries <- facts_in_order;
    print_predicates entries ;;
    print ("=====================================" +:+ endl +:+ endl).

(** ** [TextParser] *)

(** The loop of [parseRelationship] that looks for
    [X is the RELATION of Y].  The result tells whether the function
    returned from inside the loop.  The guard [i + 3 < words.size()]
    protects the reads of [words[i+1]] and [words[i+3]]; the reads of
    [words[i-1]] and [words[i+4]] in the body have no guard of their own. *)
Fixpoint parseRelationship_scan (words : list string) (i : Z) (turns : nat) : M bool :=
  match turns with
  | O => ret false
  | S turns' =>
      do w <- at_index words i;
      let word := toLower w in
      do found <-
        (if String.eqb word "is" && (size_t_add i 3 <? vsize words) then
           do w1 <- at_index words (size_t_add i 1);
           if String.eqb (toLower w1) "the" then
             do w3 <- at_index words (size_t_add i 3);
             ret (String.eqb (toLower w3) "of")
           else ret false
         else ret false);
      if found : bool then
        do ws <- at_index words (size_t_sub i 1);
        let subject := removePunctuation (toLower ws) in
        do wr <- at_index words (size_t_add i 2);
        let relation := removePunctuation (toLower wr) in
        do wo <- at_index words (size_t_add i 4);
        let object := removePunctuation (toLower wo) in
        addFact relation [subject; object] ;;
        ret true
      else parseRelationship_scan words (i + 1) turns'
  end.

Definition parseRelationship (words : list string) : M unit :=
  do returned <- parseRelationship_scan words 0 (length words);
  if returned : bool then ret tt
  else if 3 <=? vsize words then
    do w0 <- at_index words 0;
    let subject := removePunctuation (toLower w0) in
    do w1 <- at_index words 1;
    let relation := removePunctuation (toLower w1) in
    do w2 <- at_index words 2;
    let object := removePunctuation (toLower w2) in
    addFact relation [subject; object]
  else ret tt.

Definition parseProperty (words : list string) : M unit :=
  do is_pattern <-
    (if 3 <=? vsize words then
       do w1 <- at_index words 1;
       ret (String.eqb (toLower w1) "is")
     else ret false);
  if is_pattern : bool then
    do w0 <- at_index words 0;
    let subject := removePunctuation (toLower w0) in
    do w2 <- at_index words 2;
    let property := removePunctuation (toLower w2) in
    addFact property [subject]
  else ret tt.

(** The loop of [parseLivesIn]; it ends the function when it finds
    [lives in], and the function has nothing after the loop. *)
Fixpoint parseLivesIn_scan (words : list string) (i : Z) (turns : nat) : M unit :=
  match turns with
  | O => ret tt
  | S turns' =>
      do w <- at_index words i;
      do found <-
        (if String.eqb (toLower w) "lives" && (size_t_add i 2 <? vsize words) then
           do w1 <- at_index words (size_t_add i 1);
           ret (String.eqb (toLower w1) "in")
         else ret false);
      if found : bool then
        do ws <- at_index words (size_t_sub i 1);
        let subject := removePunctuation (toLower ws) in
        do wl <- at_index words (size_t_add i 2);
        let location := removePunctuation (toLower wl) in
        addFact "lives_in" [subject; location]
      else parseLivesIn_scan words (i + 1) turns'
  end.

Definition parseLivesIn (words : list string) : M unit :=
  parseLivesIn_scan words 0 (length words).

Definition parseText (text : string) : M unit :=
  print (endl +:+ "Parsing: " +:+ dquote +:+ text +:+ dquote +:+ endl) ;;
  let words := split text " "%char in
  if vsize words =? 0 then
    print ("Empty sentence, nothing to parse." +:+ endl)
  else
    let textLower := toLower text in
    if negb (find "lives in" textLower =? npos) then
      parseLivesIn words
    else if negb (find "is the" textLower =? npos)
            && negb (find " of " textLower =? npos) then
      parseRelationship words
    else if negb (find " is " textLower =? npos) then
      if vsize words =? 3 then parseProperty words
      else parseRelationship words
    else if 3 <=? vsize words then
      parseRelationship words
    else
      print ("Could not parse sentence pattern." +:+ endl).

(** ** [QueryEngine] *)

Definition extractRelation (question : string) : M string :=
  let start := size_t_add (find "is the " question) 7 in
  let end_ := find_from " of" question start in
  if negb (start =? npos) && negb (end_ =? npos) then
    do text <- substr question start (size_t_sub end_ start);
    ret (removePunctuation text)
  else ret EmptyString.

Definition extractObject (question : string) (startPos : Z) : M string :=
  do rest <- substr question startPos npos;
  ret (removePunctuation (read_first rest)).

Fixpoint print_results (results : list (list string)) (index : Z) : M unit :=
  match results with
  | [] => ret tt
  | result :: rest =>
      (if index <? vsize result then
         do value <- at_index result index;
         print ("  - " +:+ value +:+ endl)
       else ret tt) ;;
      print_results rest index
  end.

Definition printResults (results : list (list string)) (label : string)
    (index : Z) : M unit :=
  if vsize results =? 0 then
    print ("Answer: No matches found." +:+ endl)
  else
    print (label +:+ ":" +:+ endl) ;;
    print_results results index.

(** The two-way answer printed by both branches of the [Is ...?] pattern. *)
Definition print_yes_no (results : list (list string)) : M unit :=
  if negb (vsize results =? 0) then print ("Answer: Yes" +:+ endl)
  else print ("Answer: No (or unknown)" +:+ endl).

Definition processQuery (question : string) : M unit :=
  print (endl +:+ "Query: " +:+ dquote +:+ question +:+ dquote +:+ endl) ;;
  let questionLower := toLower question in
  if negb (find "who is the" questionLower =? npos) then
    let pos := find "of " questionLower in
    if negb (pos =? npos) then
      do relation <- extractRelation questionLower;
      do object <- extractObject questionLower (size_t_add pos 3);
      do results <- query relation [wildcard; object];
      printResults results "Who" 0
    else ret tt
  else if negb (find "what does" questionLower =? npos) then
    let pos := find "what does " questionLower in
    do rest <- substr questionLower (size_t_add pos 10) npos;
    let words := read_words rest in
    if 2 <=? vsize words then
      do subject <- at_index words 0;
      do relation <- at_index words 1;
      do results <- query relation [subject; wildcard];
      printResults results "Answer" 1
    else ret tt
  else if negb (find "where does" questionLower =? npos)
          && negb (find "live" questionLower =? npos) then
    let pos := find "where does " questionLower in
    do rest <- substr questionLower (size_t_add pos 11) npos;
    let subject := removePunctuation (toLower (read_first rest)) in
    do results <- query "lives_in" [subject; wildcard];
    printResults results "Location" 1
  else if find "is " questionLower =? 0 then
    let words := read_words questionLower in
    if vsize words =? 3 then
      do subject <- at_index words 1;
      do property <- at_index words 2;
      do results <- query property [subject];
      print_yes_no results
    else if 4 <=? vsize words then
      do subject <- at_index words 1;
      do relation <- at_index words 2;
      do object <- at_index words 3;
      do results <- query relation [subject; object];
      print_yes_no results
    else ret tt
  else
    print ("Could not understand query format." +:+ endl).

(** A run from the empty database with nothing printed yet. *)
Definition initial : World := mkWorld ∅ [].

(** ** [main] *)

(** The loops of [main] that print the results of its direct queries;
    they read [result[0]] and [result[1]] without a guard. *)
Fixpoint main_print_first (results : list (list string)) : M unit :=
  match results with
  | [] => ret tt
  | result :: rest =>
      do r0 <- at_index result 0;
      print ("  Result: " +:+ r0 +:+ endl) ;;
      main_print_first rest
  end.

Fixpoint main_print_second (results : list (list string)) : M unit :=
  match results with
  | [] => ret tt
  | result :: rest =>
      do r1 <- at_index result 1;
      print ("  Result: " +:+ r1 +:+ endl) ;;
      main_print_second rest
  end.

Fixpoint main_print_both (results : list (list string)) : M unit :=
  match results with
  | [] => ret tt
  | result :: rest =>
      do r0 <- at_index result 0;
      do r1 <- at_index result 1;
      print ("  Result: " +:+ r0 +:+ " lives in " +:+ r1 +:+ endl) ;;
      main_print_both rest
  end.

(** The three steps of [main]: the statements, the questions, the direct
    queries. *)
Definition main_statements : M unit :=
  parseText "John is the parent of Mary" ;;
  parseText "Mary is the parent of Susan" ;;
  parseText "John is the parent of Tom" ;;
  parseText "Tom is the parent of Alice" ;;
  parseText "John likes pizza" ;;
  parseText "Mary likes chocolate" ;;
  parseText "Susan likes music" ;;
  parseText "John lives in Paris" ;;
  parseText "Mary lives in London" ;;
  parseText "Susan lives in Tokyo" ;;
  parseText "Alice is tall" ;;
  parseText "Tom is smart".

Definition main_questions : M unit :=
  processQuery "Who is the parent of Mary?" ;;
  processQuery "What does John like?" ;;
  processQuery "Where does Mary live?" ;;
  processQuery "Is Alice tall?" ;;
  processQuery "Is John the parent of Tom?" ;;
  processQuery "Who is the parent of Susan?".

Definition main_direct_queries : M unit :=
  print (endl +:+ "Query: parent(?, mary) - Find all parents of Mary" +:+ endl) ;;
  do results1 <- query "parent" ["?"; "mary"];
  main_print_first results1 ;;
  print (endl +:+ "Query: parent(john, ?) - Find all children of John" +:+ endl) ;;
  do results2 <- query "parent" ["john"; "?"];
  main_print_second results2 ;;
  print (endl +:+ "Query: lives_in(?, ?) - Find all living arrangements" +:+ endl) ;;
  do results3 <- query "lives_in" ["?"; "?"];
  main_print_both results3.

Definition main : M Z :=
  print ("========================================" +:+ endl) ;;
  print ("   PROLOG TEXT PARSER IN C++" +:+ endl) ;;
  print ("========================================" +:+ endl +:+ endl) ;;
  print ("STEP 1: Parsing natural language statements" +:+ endl) ;;
  print ("--------------------------------------------" +:+ endl) ;;
  main_statements ;;
  printDatabase ;;
  print (endl +:+ "STEP 2: Processing queries" +:+ endl) ;;
  print ("--------------------------------------------" +:+ endl) ;;
  main_questions ;;
  print (endl +:+ endl +:+ "STEP 3: Direct PROLOG-style queries" +:+ endl) ;;
  print ("--------------------------------------------" +:+ endl) ;;
  main_direct_queries ;;
  print (endl +:+ "========================================" +:+ endl) ;;
  print ("   Program completed successfully!" +:+ endl) ;;
  print ("========================================" +:+ endl) ;;
  ret 0.

(** * The vocabulary of the properties

    What a run leaves behind, the lookup in the words of its contract, the
    answer of the question interpreter as a function of the store, and the
    stores and sentences of the examples. *)

(** [wrote w text] is [w] after [text] went to [cout]; the fact table is
    the same. *)
Definition wrote (w : World) (text : list string) : World :=
  mkWorld (facts w) (cout w ++ text).

(** The facts stored under a (case-folded) key; none for an absent key. *)
Definition stored (db : gmap string (list (list string))) (pred : string)
    : list (list string) :=
  default [] (db !! pred).

(** The text of the argument list of a fact, as the printing loop emits
    it from position [i] on. *)
Fixpoint arguments_text (arguments : list string) (i : nat) (turns : nat) : list string :=
  match turns with
  | O => []
  | S turns' =>
      match arguments !! i with
      | Some a =>
          a :: (if Z.of_nat i <? size_t_sub (vsize arguments) 1 then [", "] else [])
            ++ arguments_text arguments (S i) turns'
      | None => []
      end
  end.

(** Everything [addFact] writes. *)
Definition addFact_text (predicate : string) (arguments : list string) : list string :=
  ("Added fact: " +:+ predicate +:+ "(")
    :: arguments_text arguments 0 (length arguments) ++ [")" +:+ endl].

(** The lookup in the words of its contract.  A pattern atom fits a stored
    atom when it is the wildcard or equals it up to case. *)
Definition position_matches (a f : string) : Prop :=
  a = wildcard \/ toLower a = toLower f.

(** A pattern fits a fact when the two have the same length and every
    position of the pattern fits the atom stored there. *)
Definition tuple_matches (pattern fact : list string) : Prop :=
  length fact = length pattern /\
  forall (i : nat) (a f : string),
    pattern !! i = Some a -> fact !! i = Some f -> position_matches a f.

#[global] Instance position_matches_dec a f : Decision (position_matches a f).
Proof. unfold position_matches. apply _. Defined.

#[global] Instance tuple_matches_dec pattern fact : Decision (tuple_matches pattern fact).
Proof.
  destruct (decide (Forall2 position_matches pattern fact)) as [Hyes|Hno].
  - left. apply Forall2_same_length_lookup in Hyes as [Hlen Hpos].
    split; [done|exact Hpos].
  - right. intros [Hlen Hpos]. apply Hno.
    apply Forall2_same_length_lookup. split; [done|exact Hpos].
Defined.

(** The store of the arity example: [f(a,b,c)] then [f(a,b)] under one
    predicate. *)
Definition mixed_arity : World :=
  mkWorld {[ "f" := [["a"; "b"; "c"]; ["a"; "b"]] ]} [].

(** The store after one tuple went to the end of the sequence of [pred];
    every other key keeps its sequence. *)
Definition with_fact (db : gmap string (list (list string))) (pred : string)
    (tuple : list string) : gmap string (list (list string)) :=
  <[pred := stored db pred ++ [tuple]]> db.

(** The store of the question examples: the four facts of the statement
    examples and [parent(john, tom)]. *)
Definition family : World :=
  mkWorld
    (<["parent" := [["john"; "mary"]; ["john"; "tom"]]]>
       (<["likes" := [["john"; "pizza"]]]>
          (<["tall" := [["alice"]]]>
             (<["lives_in" := [["john"; "paris"]]]> ∅))))
    [].

(** The five statements that build that store. *)
Definition statements : M unit :=
  parseText "John is the parent of Mary" ;;
  parseText "John likes pizza" ;;
  parseText "Alice is tall" ;;
  parseText "John lives in Paris" ;;
  parseText "John is the parent of Tom".

(** The line that echoes a question before its answer. *)
Definition query_echo (question : string) : string :=
  endl +:+ "Query: " +:+ dquote +:+ question +:+ dquote +:+ endl.

(** The value of [str.substr(pos, count)] when it does not throw. *)
Definition substr_text (str : string) (pos count : Z) : string :=
  match drop_chars (Z.to_nat pos) str with
  | Some suffix => take_chars (Z.to_nat (Z.min count (ssize str - pos))) suffix
  | None => EmptyString
  end.

(** The value lines that [printResults] writes for slot [index]. *)
Fixpoint results_lines (results : list (list string)) (index : nat) : list string :=
  match results with
  | [] => []
  | result :: rest =>
      match result !! index with
      | Some value => ["  - " +:+ value +:+ endl]
      | None => []
      end ++ results_lines rest index
  end.

Definition results_text (results : list (list string)) (label : string)
    (index : nat) : list string :=
  match results with
  | [] => ["Answer: No matches found." +:+ endl]
  | _ => (label +:+ ":" +:+ endl) :: results_lines results index
  end.

Definition yes_no_text (results : list (list string)) : list string :=
  match results with
  | [] => ["Answer: No (or unknown)" +:+ endl]
  | _ => ["Answer: Yes" +:+ endl]
  end.

(** The value of [extractRelation] and of [extractObject]. *)
Definition relation_of (question : string) : string :=
  let start := size_t_add (find "is the " question) 7 in
  let end_ := find_from " of" question start in
  if negb (start =? npos) && negb (end_ =? npos)
  then removePunctuation (substr_text question start (size_t_sub end_ start))
  else EmptyString.

Definition object_of (question : string) (startPos : Z) : string :=
  removePunctuation (read_first (substr_text question startPos npos)).

(** The value of [db.query(relation, pattern)]. *)
Definition lookup_results (db : gmap string (list (list string)))
    (relation : string) (pattern : list string) : list (list string) :=
  filter (tuple_matches pattern) (stored db (toLower relation)).

(** Everything [processQuery] writes after the echo of the question. *)
Definition answer (question : string) (db : gmap string (list (list string)))
    : list string :=
  let ql := toLower question in
  if negb (find "who is the" ql =? npos) then
    let pos := find "of " ql in
    if negb (pos =? npos) then
      results_text
        (lookup_results db (relation_of ql)
           [wildcard; object_of ql (size_t_add pos 3)])
        "Who" 0
    else []
  else if negb (find "what does" ql =? npos) then
    match read_words (substr_text ql (size_t_add (find "what does " ql) 10) npos) with
    | subject :: relation :: _ =>
        results_text (lookup_results db relation [subject; wildcard]) "Answer" 1
    | _ => []
    end
  else if negb (find "where does" ql =? npos) && negb (find "live" ql =? npos) then
    let subject :=
      removePunctuation
        (toLower (read_first
           (substr_text ql (size_t_add (find "where does " ql) 11) npos))) in
    results_text (lookup_results db "lives_in" [subject; wildcard]) "Location" 1
  else if find "is " ql =? 0 then
    match read_words ql with
    | [_; subject; property] =>
        yes_no_text (lookup_results db property [subject])
    | _ :: subject :: relation :: object :: _ =>
        yes_no_text (lookup_results db relation [subject; object])
    | _ => []
    end
  else ["Could not understand query format." +:+ endl].

(** The line printed for the value in slot [index] of a result. *)
Definition value_line (index : nat) (result : list string) : string :=
  "  - " +:+ nth index result EmptyString +:+ endl.

(** The shapes of a rendered answer: a label followed by one value line
    per matching fact in stored order, the message for no match, one of
    the two yes/no answers, or the message for a question of no known
    shape. *)
Inductive rendering (db : gmap string (list (list string))) : list string -> Prop :=
| rendered_values (label relation : string) (pattern : list string) (index : nat) :
    (index < length pattern)%nat ->
    lookup_results db relation pattern <> [] ->
    rendering db ((label +:+ ":" +:+ endl)
                    :: map (value_line index) (lookup_results db relation pattern))
| rendered_no_matches :
    rendering db ["Answer: No matches found." +:+ endl]
| rendered_yes :
    rendering db ["Answer: Yes" +:+ endl]
| rendered_no :
    rendering db ["Answer: No (or unknown)" +:+ endl]
| rendered_not_understood :
    rendering db ["Could not understand query format." +:+ endl].

(** The questions that fit the opening of a pattern but lack what the
    pattern needs: [who is the] in a question that has no [of ] anywhere,
    [what does] with fewer than two words in the rest, [is ] with fewer
    than three words. *)
Definition incomplete (question : string) : bool :=
  let ql := toLower question in
  if negb (find "who is the" ql =? npos) then
    find "of " ql =? npos
  else if negb (find "what does" ql =? npos) then
    vsize (read_words (substr_text ql (size_t_add (find "what does " ql) 10) npos)) <? 2
  else if negb (find "where does" ql =? npos) && negb (find "live" ql =? npos) then
    false
  else if find "is " ql =? 0 then
    vsize (read_words ql) <? 3
  else false.

(** The claim that every question is answered: something follows the echo
    of the question. *)
Definition renders_an_answer (question : string) (w : World) : Prop :=
  exists w' text,
    processQuery question w = Ok tt w'
    /\ cout w' = cout w ++ query_echo question :: text
    /\ text <> [].

(** The text of [str] from index [pos] to its end. *)
Definition text_from (str : string) (pos : Z) : string :=
  if ssize str <? pos then EmptyString
  else default EmptyString (drop_chars (Z.to_nat pos) str).

(** The claim about the pattern, for one question: the rest of the
    question after ["what does "] has at least two words, and the answer
    is the rendering of [relation(subject, ?)] for the first two. *)
Definition what_does_reading (question : string) (w : World) : Prop :=
  let ql := toLower question in
  exists subject relation more,
    read_words (text_from ql (find "what does " ql + 10))
    = subject :: relation :: more
    /\ processQuery question w
       = Ok tt (wrote w (query_echo question
                  :: results_text
                       (lookup_results (facts w) relation [subject; wildcard])
                       "Answer" 1)).

(** A computation that, when it ends well, leaves the store as it was. *)
Definition keeps_store {A} (m : M A) : Prop :=
  forall w, match m w with
            | Ok _ w' => facts w' = facts w
            | Fault _ => True
            end.

(** A computation that, when it ends well, has left the store as it was
    or has put one tuple at the end of one sequence. *)
Definition adds_at_most_one {A} (m : M A) : Prop :=
  forall w, match m w with
            | Ok _ w' =>
                facts w' = facts w
                \/ exists pred tuple, facts w' = with_fact (facts w) pred tuple
            | Fault _ => True
            end.

(** ** Vocabulary of the further properties *)

(** Every character of a string passes a test. *)
Fixpoint string_forall (p : ascii -> bool) (s : string) : bool :=
  match s with
  | EmptyString => true
  | String c rest => p c && string_forall p rest
  end.

(** The facts that the three statement patterns build from words of the
    sentence: every atom is a word, case-folded and with its trailing
    punctuation removed. *)
Inductive statement_fact : string -> list string -> Prop :=
| relation_fact (subject relation object : string) :
    statement_fact (removePunctuation (toLower relation))
      [removePunctuation (toLower subject); removePunctuation (toLower object)]
| property_fact (subject property : string) :
    statement_fact (removePunctuation (toLower property))
      [removePunctuation (toLower subject)]
| location_fact (subject location : string) :
    statement_fact "lives_in"
      [removePunctuation (toLower subject); removePunctuation (toLower location)].

(** A computation that, when it ends well, has left the store as it was
    or has added one [statement_fact] under its case-folded predicate. *)
Definition adds_statement_fact {A} (m : M A) : Prop :=
  forall w, match m w with
            | Ok _ w' =>
                facts w' = facts w
                \/ exists pred tuple,
                     statement_fact pred tuple
                     /\ facts w' = with_fact (facts w) (toLower pred) tuple
            | Fault _ => True
            end.

(** Every key is its own case-folded form and no key has an empty
    sequence of facts. *)
Definition store_well_formed (db : gmap string (list (list string))) : Prop :=
  forall key tuples,
    db !! key = Some tuples -> toLower key = key /\ tuples <> [].

(** The lines of the dump for the facts of one predicate and for a list of
    predicates. *)
Fixpoint facts_text (name : string) (tuples : list (list string)) : list string :=
  match tuples with
  | [] => []
  | fact :: rest =>
      ("  " +:+ name +:+ "(")
        :: arguments_text fact 0 (length fact)
        ++ [")" +:+ endl] ++ facts_text name rest
  end.

Fixpoint predicates_text (entries : list (string * list (list string))) : list string :=
  match entries with
  | [] => []
  | predicate :: rest =>
      (endl +:+ "Predicate: " +:+ predicate.1 +:+ endl)
        :: facts_text predicate.1 predicate.2 ++ predicates_text rest
  end.

(** The whole dump of a store whose pairs, in the order of traversal, are
    [entries]. *)
Definition database_text (db : gmap string (list (list string)))
    (entries : list (string * list (list string))) : list string :=
  (endl +:+ "========== PROLOG DATABASE ==========" +:+ endl)
    :: (if decide (db = ∅) then ["Database is empty." +:+ endl]
        else predicates_text entries
               ++ ["=====================================" +:+ endl +:+ endl]).

#[local] Instance key_order_total {V} :
  Total (fun a b : string * V => String.le a.1 b.1).
Proof. intros a b. apply (total String.le). Qed.

#[local] Instance key_order_transitive {V} :
  Transitive (fun a b : string * V => String.le a.1 b.1).
Proof. intros a b c. apply (transitivity (R := String.le)). Qed.

(** The words at [k] and [k + 1] are [lives] and [in] (in any letter
    case) and a word stands at [k + 2]: the test of the loop of
    [parseLivesIn] at counter [k]. *)
Definition lives_in_at (words : list string) (k : nat) : Prop :=
  exists a b,
    words !! k = Some a /\ toLower a = "lives"
    /\ words !! (k + 1)%nat = Some b /\ toLower b = "in"
    /\ (k + 2 < length words)%nat.

(** What [parseLivesIn] does once its test holds at counter [k]. *)
Definition lives_in_body (words : list string) (k : Z) : M unit :=
  do ws <- at_index words (size_t_sub k 1);
  let subject := removePunctuation (toLower ws) in
  do wl <- at_index words (size_t_add k 2);
  let location := removePunctuation (toLower wl) in
  addFact "lives_in" [subject; location].

(** The words at [k], [k + 1] and [k + 3] are [is], [the] and [of] (in any
    letter case): the test of the loop of [parseRelationship] at counter
    [k]. *)
Definition relation_at (words : list string) (k : nat) : Prop :=
  exists a b c,
    words !! k = Some a /\ toLower a = "is"
    /\ words !! (k + 1)%nat = Some b /\ toLower b = "the"
    /\ words !! (k + 3)%nat = Some c /\ toLower c = "of".

(** What [parseRelationship] does once its test holds at counter [k]. *)
Definition relation_body (words : list string) (k : Z) : M bool :=
  do ws <- at_index words (size_t_sub k 1);
  let subject := removePunctuation (toLower ws) in
  do wr <- at_index words (size_t_add k 2);
  let relation := removePunctuation (toLower wr) in
  do wo <- at_index words (size_t_add k 4);
  let object := removePunctuation (toLower wo) in
  addFact relation [subject; object] ;;
  ret true.

(** The line that echoes a sentence before it is parsed. *)
Definition parsing_echo (text : string) : string :=
  endl +:+ "Parsing: " +:+ dquote +:+ text +:+ dquote +:+ endl.

(** The query that the [Is ...?] pattern makes from the words of the
    question: with three words a property of the second word, with four
    or more a relation between the second and the fourth. *)
Definition yes_no_query (words : list string) : option (string * list string) :=
  match words with
  | [_; subject; property] => Some (property, [subject])
  | _ :: subject :: relation :: object :: _ => Some (relation, [subject; object])
  | _ => None
  end.

(** A character other than the space. *)
Definition not_space (c : ascii) : bool := negb (Ascii.eqb c " ").

(** The store that the twelve statements of [main] build. *)
Definition main_store : gmap string (list (list string)) :=
  <["parent" := [["john"; "mary"]; ["mary"; "susan"]; ["john"; "tom"];
                 ["tom"; "alice"]]]>
    (<["likes" := [["john"; "pizza"]; ["mary"; "chocolate"]; ["susan"; "music"]]]>
       (<["lives_in" := [["john"; "paris"]; ["mary"; "london"];
                         ["susan"; "tokyo"]]]>
          (<["tall" := [["alice"]]]> (<["smart" := [["tom"]]]> ∅)))).

(** * Supporting lemmas *)

(** ** What a run leaves behind *)

Lemma wrote_nil w : wrote w [] = w.
Proof. destruct w as [db out]. unfold wrote. simpl. by rewrite app_nil_r. Qed.

Lemma wrote_wrote w a b : wrote (wrote w a) b = wrote w (a ++ b).
Proof. unfold wrote. simpl. by rewrite <- app_assoc. Qed.

Lemma facts_wrote w text : facts (wrote w text) = facts w.
Proof. reflexivity. Qed.

Lemma bind_ok {A B} (m : M A) (k : A -> M B) w a w' :
  m w = Ok a w' -> bind m k w = k a w'.
Proof. intros H. unfold bind. by rewrite H. Qed.

Lemma print_wrote text w : print text w = Ok tt (wrote w [text]).
Proof. reflexivity. Qed.

Lemma at_index_lookup {A} (v : list A) (n : nat) (x : A) w :
  v !! n = Some x -> at_index v (Z.of_nat n) w = Ok x w.
Proof.
  intros H. unfold at_index, vsize.
  pose proof (lookup_lt_Some _ _ _ H) as Hlt.
  assert ((0 <=? Z.of_nat n) && (Z.of_nat n <? Z.of_nat (length v)) = true) as ->.
  { apply andb_true_iff. split; [apply Z.leb_le | apply Z.ltb_lt]; lia. }
  by rewrite Nat2Z.id, H.
Qed.

Lemma print_arguments_wrote arguments turns : forall (i : nat) w,
  (i + turns = length arguments)%nat ->
  print_arguments arguments (Z.of_nat i) turns w
  = Ok tt (wrote w (arguments_text arguments i turns)).
Proof.
  induction turns as [|turns IH]; intros i w Hlen; simpl.
  - unfold ret. by rewrite wrote_nil.
  - destruct (lookup_lt_is_Some_2 arguments i) as [a Ha]; [lia|].
    rewrite Ha.
    erewrite bind_ok by (by apply at_index_lookup).
    erewrite bind_ok by apply print_wrote.
    replace (Z.of_nat i + 1) with (Z.of_nat (S i)) by lia.
    destruct (Z.of_nat i <? size_t_sub (vsize arguments) 1).
    + erewrite bind_ok by apply print_wrote.
      rewrite IH by lia. by rewrite !wrote_wrote.
    + erewrite bind_ok by reflexivity.
      rewrite IH by lia. by rewrite !wrote_wrote.
Qed.

(** [addFact] never goes wrong: it appends the tuple to the sequence of
    the case-folded key and reports it. *)
Lemma addFact_run predicate arguments w :
  addFact predicate arguments w
  = Ok tt (mkWorld
             (<[toLower predicate :=
                  stored (facts w) (toLower predicate) ++ [arguments]]> (facts w))
             (cout w ++ addFact_text predicate arguments)).
Proof.
  unfold addFact.
  set (w1 := mkWorld (<[toLower predicate :=
                  stored (facts w) (toLower predicate) ++ [arguments]]> (facts w))
                  (cout w)).
  assert (facts_push_back (toLower predicate) arguments w = Ok tt w1) as Hpush.
  { unfold facts_push_back, bind, facts_subscript, w1, stored.
    destruct (facts w !! toLower predicate) as [v|] eqn:Hv; simpl; [done|].
    by rewrite insert_insert_eq. }
  erewrite bind_ok by exact Hpush.
  erewrite bind_ok by apply print_wrote.
  erewrite bind_ok by (apply (print_arguments_wrote arguments _ 0%nat); lia).
  rewrite print_wrote, !wrote_wrote. reflexivity.
Qed.

(** ** The lookup loop computes the contract *)

Lemma tuple_matches_Forall2 pattern fact :
  tuple_matches pattern fact <-> Forall2 position_matches pattern fact.
Proof.
  unfold tuple_matches. rewrite Forall2_same_length_lookup.
  split; intros [Hlen H]; split; auto.
Qed.

Lemma tuple_matches_length pattern fact :
  tuple_matches pattern fact -> length fact = length pattern.
Proof. by intros [H _]. Qed.

Lemma query_match_run arguments fact turns : forall (i : nat) w,
  length fact = length arguments ->
  (i + turns = length arguments)%nat ->
  query_match arguments fact (Z.of_nat i) turns w
  = Ok (bool_decide (Forall2 position_matches (drop i arguments) (drop i fact))) w.
Proof.
  induction turns as [|turns IH]; intros i w Hlen Hi; simpl.
  - rewrite !drop_ge by lia. reflexivity.
  - destruct (lookup_lt_is_Some_2 arguments i) as [a Ha]; [lia|].
    destruct (lookup_lt_is_Some_2 fact i) as [f Hf]; [lia|].
    erewrite bind_ok by (by apply at_index_lookup).
    rewrite (drop_S _ _ _ Ha), (drop_S _ _ _ Hf).
    replace (Z.of_nat i + 1) with (Z.of_nat (S i)) by lia.
    destruct (String.eqb a wildcard) eqn:Hwild; simpl.
    + apply String.eqb_eq in Hwild.
      rewrite IH by lia. f_equal. apply bool_decide_ext.
      rewrite Forall2_cons. unfold position_matches. tauto.
    + apply String.eqb_neq in Hwild.
      erewrite bind_ok by (by apply at_index_lookup).
      destruct (String.eqb (toLower a) (toLower f)) eqn:Hsame; simpl.
      * apply String.eqb_eq in Hsame.
        rewrite IH by lia. f_equal. apply bool_decide_ext.
        rewrite Forall2_cons. unfold position_matches. tauto.
      * apply String.eqb_neq in Hsame. unfold ret. f_equal.
        symmetry. apply bool_decide_eq_false.
        rewrite Forall2_cons. unfold position_matches. tauto.
Qed.

Lemma query_scan_run arguments pending : forall results w,
  query_scan arguments pending results w
  = Ok (results ++ filter (tuple_matches arguments) pending) w.
Proof.
  induction pending as [|fact rest IH]; intros results w; simpl.
  - unfold ret. by rewrite filter_nil, app_nil_r.
  - unfold vsize.
    destruct (Z.of_nat (length fact) =? Z.of_nat (length arguments)) eqn:Harity; simpl.
    + apply Z.eqb_eq in Harity.
      erewrite bind_ok
        by (apply (query_match_run arguments fact _ 0%nat); lia).
      rewrite !drop_0, IH.
      destruct (decide (tuple_matches arguments fact)) as [Hm|Hm].
      * rewrite bool_decide_eq_true_2 by (by apply tuple_matches_Forall2).
        rewrite filter_cons_True by done. by rewrite <- app_assoc.
      * rewrite bool_decide_eq_false_2 by (by rewrite <- tuple_matches_Forall2).
        by rewrite filter_cons_False by done.
    + apply Z.eqb_neq in Harity.
      rewrite IH, filter_cons_False; [done|].
      intros Hm%tuple_matches_length. lia.
Qed.

(** [query] never goes wrong and never changes the world: its value is
    the stored sequence of the case-folded key, filtered by the pattern. *)
Lemma query_run predicate arguments w :
  query predicate arguments w
  = Ok (filter (tuple_matches arguments) (stored (facts w) (toLower predicate))) w.
Proof.
  unfold query, bind, facts_find, facts_subscript, stored.
  destruct (facts w !! toLower predicate) as [v|] eqn:Hv; simpl.
  - rewrite Hv. by rewrite query_scan_run.
  - reflexivity.
Qed.

(** ** Searches and substrings stay inside the text *)

Lemma prefix_length needle : forall text,
  String.prefix needle text = true ->
  (String.length needle <= String.length text)%nat.
Proof.
  induction needle as [|c needle IH]; intros [|d text] H; simpl in *;
    try lia; try discriminate.
  destruct (ascii_dec c d); [|discriminate].
  specialize (IH _ H). lia.
Qed.

Lemma find_here_bounds needle suffix : forall i,
  find_here needle suffix i <> npos ->
  i <= find_here needle suffix i
  /\ find_here needle suffix i + ssize needle <= i + ssize suffix.
Proof.
  unfold ssize.
  induction suffix as [|c suffix IH]; intros i Hfound.
  - unfold find_here in *.
    destruct (String.prefix needle "") eqn:Hp; [|done].
    apply prefix_length in Hp. simpl in *. lia.
  - cbn [find_here] in *.
    destruct (String.prefix needle (String c suffix)) eqn:Hp.
    + apply prefix_length in Hp. lia.
    + specialize (IH (i + 1) Hfound). simpl String.length. lia.
Qed.

Lemma drop_chars_length n : forall text suffix,
  drop_chars n text = Some suffix ->
  (String.length suffix + n = String.length text)%nat.
Proof.
  induction n as [|n IH]; intros [|c text] suffix H; simpl in *;
    simplify_eq; simpl; try lia.
  specialize (IH _ _ H). lia.
Qed.

Lemma drop_chars_some n : forall text,
  (n <= String.length text)%nat -> is_Some (drop_chars n text).
Proof.
  induction n as [|n IH]; intros [|c text] H; simpl in *; eauto; try lia.
  apply IH. lia.
Qed.

Lemma find_from_bounds needle hay pos :
  0 <= pos ->
  find_from needle hay pos <> npos ->
  pos <= find_from needle hay pos
  /\ find_from needle hay pos + ssize needle <= ssize hay.
Proof.
  intros Hpos. unfold find_from.
  destruct (ssize hay <? pos) eqn:Hlt; [done|].
  destruct (drop_chars (Z.to_nat pos) hay) as [suffix|] eqn:Hdrop; [|done].
  intros Hfound. apply find_here_bounds in Hfound.
  apply drop_chars_length in Hdrop. unfold ssize in *. lia.
Qed.

Lemma find_bounds needle hay :
  find needle hay <> npos ->
  0 <= find needle hay /\ find needle hay + ssize needle <= ssize hay.
Proof. intros H. by apply find_from_bounds. Qed.

Lemma size_t_add_range a b :
  0 <= size_t_add a b < size_t_modulus.
Proof. unfold size_t_add. apply Z.mod_pos_bound. reflexivity. Qed.

Lemma size_t_add_le a b : 0 <= a + b -> size_t_add a b <= a + b.
Proof. intros H. unfold size_t_add. apply Z.mod_le; [done|reflexivity]. Qed.

Lemma substr_run str pos count w :
  0 <= pos -> pos <= ssize str ->
  substr str pos count w = Ok (substr_text str pos count) w.
Proof.
  intros H0 Hle. unfold substr, substr_text.
  assert ((ssize str <? pos) = false) as -> by (apply Z.ltb_ge; lia).
  destruct (drop_chars_some (Z.to_nat pos) str) as [suffix ->]; [|done].
  unfold ssize in Hle. lia.
Qed.

(** ** The question interpreter as a function of the store *)

Lemma print_results_run results (index : nat) : forall w,
  print_results results (Z.of_nat index) w
  = Ok tt (wrote w (results_lines results index)).
Proof.
  induction results as [|result rest IH]; intros w; simpl.
  - unfold ret. by rewrite wrote_nil.
  - unfold vsize.
    destruct (result !! index) as [value|] eqn:Hvalue.
    + pose proof (lookup_lt_Some _ _ _ Hvalue) as Hlt.
      assert ((Z.of_nat index <? Z.of_nat (length result)) = true) as ->
        by (apply Z.ltb_lt; lia).
      erewrite bind_ok.
      2:{ erewrite bind_ok by (by apply at_index_lookup). apply print_wrote. }
      by rewrite IH, wrote_wrote.
    + apply lookup_ge_None in Hvalue.
      assert ((Z.of_nat index <? Z.of_nat (length result)) = false) as ->
        by (apply Z.ltb_ge; lia).
      erewrite bind_ok by reflexivity. by rewrite IH.
Qed.

Lemma printResults_run results label (index : nat) w :
  printResults results label (Z.of_nat index) w
  = Ok tt (wrote w (results_text results label index)).
Proof.
  unfold printResults, results_text. destruct results as [|result rest].
  - reflexivity.
  - assert ((vsize (result :: rest) =? 0) = false) as ->
      by (apply Z.eqb_neq; unfold vsize; simpl; lia).
    erewrite bind_ok by apply print_wrote.
    by rewrite print_results_run, wrote_wrote.
Qed.

Lemma print_yes_no_run results w :
  print_yes_no results w = Ok tt (wrote w (yes_no_text results)).
Proof. by destruct results. Qed.

Lemma extractRelation_run question w :
  extractRelation question w = Ok (relation_of question) w.
Proof.
  unfold extractRelation, relation_of.
  set (start := size_t_add (find "is the " question) 7).
  destruct (start =? npos) eqn:Hstart; [done|].
  destruct (find_from " of" question start =? npos) eqn:Hend; [done|].
  apply Z.eqb_neq in Hend. simpl.
  pose proof (size_t_add_range (find "is the " question) 7) as [Hs _].
  apply find_from_bounds in Hend; [|done].
  erewrite bind_ok; [reflexivity|].
  apply substr_run; [done|]. fold start. unfold ssize in *. simpl in Hend. lia.
Qed.

Lemma extractObject_run question startPos w :
  0 <= startPos -> startPos <= ssize question ->
  extractObject question startPos w = Ok (object_of question startPos) w.
Proof.
  intros H0 Hle. unfold extractObject, object_of.
  erewrite bind_ok by (by apply substr_run). reflexivity.
Qed.

(** A marker of [marker_size] characters was found (with or without the
    trailing space that the second search adds): the start of the rest of
    the question is inside the question. *)
Lemma rest_start_inside marker spaced text :
  find marker text <> npos ->
  ssize spaced = ssize marker + 1 ->
  ssize spaced < size_t_modulus ->
  0 <= size_t_add (find spaced text) (ssize spaced)
  /\ size_t_add (find spaced text) (ssize spaced) <= ssize text.
Proof.
  intros Hmarker Hsize Hsmall.
  split; [apply size_t_add_range|].
  apply find_bounds in Hmarker.
  destruct (decide (find spaced text = npos)) as [->|Hspaced].
  - unfold size_t_add, npos.
    replace (size_t_modulus - 1 + ssize spaced)
      with (ssize marker + 1 * size_t_modulus) by lia.
    rewrite Z.mod_add by done.
    rewrite Z.mod_small; [lia|]. unfold ssize in *. lia.
  - apply find_bounds in Hspaced.
    pose proof (size_t_add_le (find spaced text) (ssize spaced)) as Hle.
    unfold ssize in *. lia.
Qed.

Lemma vsize_cons {A} (x : A) (v : list A) : vsize (x :: v) = 1 + vsize v.
Proof. unfold vsize. simpl length. lia. Qed.

Lemma vsize_nonneg {A} (v : list A) : 0 <= vsize v.
Proof. unfold vsize. lia. Qed.

(** The [Is ...?] branch of [processQuery], on the words it has read. *)
Lemma processQuery_is_branch (words : list string) w :
  (if vsize words =? 3 then
     do subject <- at_index words 1;
     do property <- at_index words 2;
     do results <- query property [subject];
     print_yes_no results
   else if 4 <=? vsize words then
     do subject <- at_index words 1;
     do relation <- at_index words 2;
     do object <- at_index words 3;
     do results <- query relation [subject; object];
     print_yes_no results
   else ret tt) w
  = Ok tt (wrote w
      match words with
      | [_; subject; property] =>
          yes_no_text (lookup_results (facts w) property [subject])
      | _ :: subject :: relation :: object :: _ =>
          yes_no_text (lookup_results (facts w) relation [subject; object])
      | _ => []
      end).
Proof.
  destruct words as [|a [|b [|c [|d rest]]]];
    try (unfold ret; by rewrite wrote_nil).
  - assert ((vsize [a; b; c] =? 3) = true) as -> by reflexivity.
    erewrite bind_ok by (by apply (at_index_lookup _ 1%nat)).
    erewrite bind_ok by (by apply (at_index_lookup _ 2%nat)).
    erewrite bind_ok by apply query_run.
    by rewrite print_yes_no_run.
  - assert ((vsize (a :: b :: c :: d :: rest) =? 3) = false) as ->.
    { apply Z.eqb_neq. rewrite !vsize_cons. pose proof (vsize_nonneg rest). lia. }
    assert ((4 <=? vsize (a :: b :: c :: d :: rest)) = true) as ->.
    { apply Z.leb_le. rewrite !vsize_cons. pose proof (vsize_nonneg rest). lia. }
    erewrite bind_ok by (by apply (at_index_lookup _ 1%nat)).
    erewrite bind_ok by (by apply (at_index_lookup _ 2%nat)).
    erewrite bind_ok by (by apply (at_index_lookup _ 3%nat)).
    erewrite bind_ok by apply query_run.
    by rewrite print_yes_no_run.
Qed.

(** [processQuery] never goes wrong and leaves the store alone: it writes
    the echo of the question and then [answer]. *)
Lemma processQuery_run question w :
  processQuery question w
  = Ok tt (wrote w (query_echo question :: answer question (facts w))).
Proof.
  unfold processQuery, answer.
  erewrite bind_ok by apply print_wrote. fold (query_echo question).
  set (ql := toLower question). set (w1 := wrote w [query_echo question]).
  assert (forall text, wrote w1 text = wrote w (query_echo question :: text)) as Hfin
    by (intros; apply wrote_wrote).
  assert (ret tt w1 = Ok tt (wrote w [query_echo question])) as Hsilent by done.
  destruct (find "who is the" ql =? npos) eqn:Hwho; simpl.
  2:{ destruct (find "of " ql =? npos) eqn:Hof; simpl; [done|].
      apply Z.eqb_neq, find_bounds in Hof. change (ssize "of ") with 3 in Hof.
      erewrite bind_ok by apply extractRelation_run.
      erewrite bind_ok.
      2:{ apply extractObject_run; [apply size_t_add_range|].
          pose proof (size_t_add_le (find "of " ql) 3). lia. }
      erewrite bind_ok by apply query_run.
      etrans; [apply (printResults_run _ "Who" 0%nat)|]. by rewrite Hfin. }
  destruct (find "what does" ql =? npos) eqn:Hwhat; simpl.
  2:{ apply Z.eqb_neq in Hwhat.
      destruct (rest_start_inside "what does" "what does " ql Hwhat) as [Hr0 Hr1];
        [reflexivity..|].
      change (ssize "what does ") with 10 in *.
      erewrite bind_ok by (by apply substr_run).
      destruct (read_words _) as [|subject [|relation rest]]; [done..|].
      assert ((2 <=? vsize (subject :: relation :: rest)) = true) as ->.
      { apply Z.leb_le. rewrite !vsize_cons. pose proof (vsize_nonneg rest). lia. }
      erewrite bind_ok by (by apply (at_index_lookup _ 0%nat)).
      erewrite bind_ok by (by apply (at_index_lookup _ 1%nat)).
      erewrite bind_ok by apply query_run.
      etrans; [apply (printResults_run _ "Answer" 1%nat)|]. by rewrite Hfin. }
  destruct (find "where does" ql =? npos) eqn:Hwhere; simpl.
  2:{ destruct (find "live" ql =? npos) eqn:Hlive; simpl.
      2:{ apply Z.eqb_neq in Hwhere.
          destruct (rest_start_inside "where does" "where does " ql Hwhere)
            as [Hr0 Hr1]; [reflexivity..|].
          change (ssize "where does ") with 11 in *.
          erewrite bind_ok by (by apply substr_run).
          erewrite bind_ok by apply query_run.
          etrans; [apply (printResults_run _ "Location" 1%nat)|]. by rewrite Hfin. }
      destruct (find "is " ql =? 0); [|by rewrite print_wrote, Hfin].
      by rewrite processQuery_is_branch, Hfin. }
  destruct (find "is " ql =? 0); [|by rewrite print_wrote, Hfin].
  by rewrite processQuery_is_branch, Hfin.
Qed.

(** ** Questions read, statements append *)

Lemma print_facts_run name : forall (tuples : list (list string)) w,
  exists text, print_facts name tuples w = Ok tt (wrote w text).
Proof.
  induction tuples as [|fact rest IH]; intros w; simpl.
  - exists []. unfold ret. by rewrite wrote_nil.
  - erewrite bind_ok by apply print_wrote.
    erewrite bind_ok by (apply (print_arguments_wrote fact _ 0%nat); lia).
    erewrite bind_ok by apply print_wrote.
    destruct (IH (wrote (wrote (wrote w [("  " +:+ name +:+ "(")])
                   (arguments_text fact 0 (length fact))) [(")" +:+ endl)]))
      as [text ->].
    eexists. by rewrite !wrote_wrote.
Qed.

Lemma print_predicates_run : forall (entries : list (string * list (list string))) w,
  exists text, print_predicates entries w = Ok tt (wrote w text).
Proof.
  induction entries as [|predicate rest IH]; intros w; simpl.
  - exists []. unfold ret. by rewrite wrote_nil.
  - erewrite bind_ok by apply print_wrote.
    destruct (print_facts_run predicate.1 predicate.2
                (wrote w [(endl +:+ "Predicate: " +:+ predicate.1 +:+ endl)]))
      as [text1 H1].
    erewrite bind_ok by exact H1.
    destruct (IH (wrote (wrote w [(endl +:+ "Predicate: " +:+ predicate.1 +:+ endl)])
                        text1)) as [text2 ->].
    eexists. by rewrite !wrote_wrote.
Qed.

Lemma printDatabase_run w :
  exists text, printDatabase w = Ok tt (wrote w text).
Proof.
  unfold printDatabase.
  erewrite bind_ok by apply print_wrote.
  erewrite bind_ok by reflexivity.
  destruct (bool_decide _).
  - rewrite print_wrote. eexists. by rewrite wrote_wrote.
  - erewrite bind_ok by reflexivity.
    match goal with
    | |- context [print_predicates ?entries] =>
        destruct (print_predicates_run entries
          (wrote w [(endl +:+ "========== PROLOG DATABASE ==========" +:+ endl)]))
          as [text H]
    end.
    erewrite bind_ok by exact H.
    rewrite print_wrote. eexists. by rewrite !wrote_wrote.
Qed.

(** ** What a question renders *)

Lemma results_lines_map (results : list (list string)) (index : nat) :
  Forall (fun result => (index < length result)%nat) results ->
  results_lines results index = map (value_line index) results.
Proof.
  induction 1 as [|result rest Hlt _ IH]; simpl; [done|].
  destruct (lookup_lt_is_Some_2 result index Hlt) as [value Hvalue].
  rewrite Hvalue, IH. simpl. unfold value_line.
  by rewrite (nth_lookup_Some _ _ _ _ Hvalue).
Qed.

Lemma lookup_results_arity db relation pattern :
  Forall (fun result => length result = length pattern)
         (lookup_results db relation pattern).
Proof.
  apply Forall_forall. intros result [Hm _]%list_elem_of_filter.
  by apply tuple_matches_length.
Qed.

Lemma results_text_values db relation pattern label (index : nat) :
  (index < length pattern)%nat ->
  results_text (lookup_results db relation pattern) label index
  = match lookup_results db relation pattern with
    | [] => ["Answer: No matches found." +:+ endl]
    | results => (label +:+ ":" +:+ endl) :: map (value_line index) results
    end.
Proof.
  intros Hindex. unfold results_text.
  rewrite results_lines_map; [by destruct (lookup_results _ _ _)|].
  eapply Forall_impl; [apply lookup_results_arity|].
  simpl. intros result ->. done.
Qed.

Lemma results_text_rendering db relation pattern label (index : nat) :
  (index < length pattern)%nat ->
  rendering db (results_text (lookup_results db relation pattern) label index)
  /\ results_text (lookup_results db relation pattern) label index <> [].
Proof.
  intros Hindex. rewrite results_text_values by done.
  destruct (lookup_results db relation pattern) eqn:Hresults.
  - split; [constructor|done].
  - split; [|done]. rewrite <- Hresults. constructor; [done|]. by rewrite Hresults.
Qed.

Lemma yes_no_text_rendering db results :
  rendering db (yes_no_text results) /\ yes_no_text results <> [].
Proof. destruct results; (split; [constructor|done]). Qed.

(** ** The [What does X RELATION?] pattern *)

Lemma toLower_length str : String.length (toLower str) = String.length str.
Proof. induction str as [|c str IH]; simpl; congruence. Qed.

Lemma take_chars_all n : forall str,
  (String.length str <= n)%nat -> take_chars n str = str.
Proof.
  induction n as [|n IH]; intros [|c str] H; simpl in *; try done; try lia.
  rewrite IH; [done|lia].
Qed.

Lemma substr_text_to_end str pos :
  0 <= pos -> pos <= ssize str -> ssize str < size_t_modulus ->
  substr_text str pos npos = text_from str pos.
Proof.
  intros H0 Hle Hsmall. unfold substr_text, text_from.
  assert ((ssize str <? pos) = false) as -> by (apply Z.ltb_ge; lia).
  destruct (drop_chars (Z.to_nat pos) str) as [suffix|] eqn:Hdrop; [|done].
  simpl. apply take_chars_all.
  apply drop_chars_length in Hdrop. unfold ssize, npos in *. lia.
Qed.

Lemma drop_chars_S n : forall c str,
  drop_chars (S n) (String c str) = drop_chars n str.
Proof. reflexivity. Qed.

(** Where [find_here] reports an occurrence, the needle is there. *)
Lemma find_here_prefix needle suffix : forall i,
  find_here needle suffix i <> npos ->
  exists tail,
    drop_chars (Z.to_nat (find_here needle suffix i - i)) suffix = Some tail
    /\ String.prefix needle tail = true.
Proof.
  induction suffix as [|c suffix IH]; intros i Hfound.
  - unfold find_here in *.
    destruct (String.prefix needle "") eqn:Hp; [|done].
    exists EmptyString. by rewrite Z.sub_diag.
  - cbn [find_here] in *.
    destruct (String.prefix needle (String c suffix)) eqn:Hp.
    + exists (String c suffix). by rewrite Z.sub_diag.
    + destruct (IH (i + 1) Hfound) as (tail & Hdrop & Htail).
      pose proof (find_here_bounds needle suffix (i + 1) Hfound) as [Hle _].
      exists tail. split; [|done].
      replace (Z.to_nat (find_here needle suffix (i + 1) - i))
        with (S (Z.to_nat (find_here needle suffix (i + 1) - (i + 1)))) by lia.
      by rewrite drop_chars_S.
Qed.

Lemma find_prefix needle hay :
  find needle hay <> npos ->
  String.prefix needle (text_from hay (find needle hay)) = true.
Proof.
  intros Hfound. pose proof (find_bounds _ _ Hfound) as [H0 Hle].
  unfold text_from.
  assert ((ssize hay <? find needle hay) = false) as ->.
  { apply Z.ltb_ge. unfold ssize in *. lia. }
  unfold find, find_from in *.
  destruct (ssize hay <? 0); [done|]. simpl in *.
  destruct (find_here_prefix needle hay 0 Hfound) as (tail & Hdrop & Htail).
  rewrite Z.sub_0_r in Hdrop. by rewrite Hdrop.
Qed.

(** ** The bounded loops run to their end *)

Lemma pop_back_length str c :
  back str = Some c -> S (String.length (pop_back str)) = String.length str.
Proof.
  induction str as [|d [|e str] IH]; simpl in *; intros H; try done.
  f_equal. by apply IH.
Qed.

Lemma removePunctuation_loop_done turns : forall str,
  (String.length str <= turns)%nat ->
  match back (removePunctuation_loop turns str) with
  | Some c => ispunct c = false
  | None => True
  end.
Proof.
  induction turns as [|turns IH]; intros str Hlen; simpl.
  - destruct str; [done|simpl in Hlen; lia].
  - destruct (back str) as [c|] eqn:Hback; [|by rewrite Hback].
    destruct (ispunct c) eqn:Hpunct; [|by rewrite Hback].
    apply IH. apply pop_back_length in Hback. lia.
Qed.

(** [removePunctuation] stops because no punctuation is left at the end,
    not because its turns ran out. *)
Lemma removePunctuation_done str :
  match back (removePunctuation str) with
  | Some c => ispunct c = false
  | None => True
  end.
Proof. by apply removePunctuation_loop_done. Qed.

Lemma skip_spaces_length ss :
  (String.length (skip_spaces ss) <= String.length ss)%nat.
Proof.
  induction ss as [|c ss IH]; simpl; [done|].
  destruct (isspace c); simpl; lia.
Qed.

Lemma read_word_length ss :
  (String.length (read_word ss).2 <= String.length ss)%nat.
Proof.
  induction ss as [|c ss IH]; simpl; [done|].
  destruct (isspace c); simpl; [done|].
  destruct (read_word ss) as [word unread]. simpl in *. lia.
Qed.

Lemma stream_extract_shorter ss word unread :
  stream_extract ss = Some (word, unread) ->
  (String.length unread < String.length ss)%nat.
Proof.
  unfold stream_extract. pose proof (skip_spaces_length ss) as Hskip.
  destruct (skip_spaces ss) as [|c rest] eqn:Hrest; [done|].
  assert (isspace c = false) as Hc.
  { clear Hskip. induction ss as [|d ss IH]; simpl in Hrest; [done|].
    destruct (isspace d) eqn:Hd; [by apply IH|]. by simplify_eq. }
  simpl. rewrite Hc. pose proof (read_word_length rest) as Hword.
  destruct (read_word rest) as [w u]. intros [= <- <-]. simpl in *. lia.
Qed.

Lemma read_words_loop_done turns : forall ss words,
  (String.length ss < turns)%nat ->
  stream_extract (read_words_loop turns ss words).2 = None.
Proof.
  induction turns as [|turns IH]; intros ss words Hlen; simpl; [lia|].
  destruct (stream_extract ss) as [[word unread]|] eqn:Hextract; [|done].
  apply IH. apply stream_extract_shorter in Hextract. lia.
Qed.

(** The loop of [read_words] stops because the stream has no word left. *)
Lemma read_words_done text :
  stream_extract (read_words_loop (S (String.length text)) text []).2 = None.
Proof. apply read_words_loop_done. lia. Qed.

Lemma read_line_length delimiter ss :
  (String.length (read_line delimiter ss).2 <= String.length ss)%nat.
Proof.
  induction ss as [|c ss IH]; simpl; [done|].
  destruct (Ascii.eqb c delimiter); simpl; [lia|].
  destruct (read_line delimiter ss) as [token unread]. simpl in *. lia.
Qed.

Lemma getline_shorter ss delimiter token unread :
  getline ss delimiter = Some (token, unread) ->
  (String.length unread < String.length ss)%nat.
Proof.
  destruct ss as [|c ss]; [done|]. simpl.
  pose proof (read_line_length delimiter ss) as Hline.
  destruct (Ascii.eqb c delimiter).
  - intros [= <- <-]. lia.
  - destruct (read_line delimiter ss) as [t u]. intros [= <- <-]. simpl in *. lia.
Qed.

Lemma split_loop_done turns delimiter : forall ss tokens,
  (String.length ss < turns)%nat ->
  getline (split_loop turns ss delimiter tokens).2 delimiter = None.
Proof.
  induction turns as [|turns IH]; intros ss tokens Hlen; simpl; [lia|].
  destruct (getline ss delimiter) as [[token unread]|] eqn:Hline; [|done].
  apply IH. apply getline_shorter in Hline. lia.
Qed.

(** The loop of [split] stops because [getline] has nothing left to read. *)
Lemma split_done str delimiter :
  getline (split_loop (S (String.length str)) str delimiter []).2 delimiter = None.
Proof. apply split_loop_done. lia. Qed.

(** ** A statement adds at most one fact *)

Lemma keeps_ret {A} (a : A) : keeps_store (ret a).
Proof. by intros w. Qed.

Lemma keeps_print text : keeps_store (print text).
Proof. by intros w. Qed.

Lemma keeps_at_index {A} (v : list A) i : keeps_store (at_index v i).
Proof.
  intros w. unfold at_index.
  destruct ((0 <=? i) && (i <? vsize v)); [|done].
  by destruct (v !! Z.to_nat i).
Qed.

Lemma keeps_bind {A B} (m : M A) (k : A -> M B) :
  keeps_store m -> (forall a, keeps_store (k a)) -> keeps_store (bind m k).
Proof.
  intros Hm Hk w. unfold bind. specialize (Hm w).
  destruct (m w) as [a w1|]; [|done].
  specialize (Hk a w1). destruct (k a w1); [|done]. congruence.
Qed.

Lemma adds_of_keeps {A} (m : M A) : keeps_store m -> adds_at_most_one m.
Proof. intros Hm w. specialize (Hm w). destruct (m w); auto. Qed.

Lemma adds_after_keeps {A B} (m : M A) (k : A -> M B) :
  keeps_store m -> (forall a, adds_at_most_one (k a)) ->
  adds_at_most_one (bind m k).
Proof.
  intros Hm Hk w. unfold bind. specialize (Hm w).
  destruct (m w) as [a w1|]; [|done].
  specialize (Hk a w1). destruct (k a w1); [|done]. by rewrite <- Hm.
Qed.

Lemma adds_addFact predicate arguments :
  adds_at_most_one (addFact predicate arguments).
Proof. intros w. rewrite addFact_run. simpl. right. by eexists _, _. Qed.

Ltac keeps_store :=
  repeat first
    [ apply keeps_ret | apply keeps_print | apply keeps_at_index
    | apply keeps_bind; [|intros ?]
    | match goal with
      | |- keeps_store (if ?b then _ else _) => destruct b
      end ].

(** The loop of [parseRelationship] tells by its result whether it added
    a fact. *)
Lemma parseRelationship_scan_store words turns : forall i w,
  match parseRelationship_scan words i turns w with
  | Ok returned w' =>
      if returned
      then exists pred tuple, facts w' = with_fact (facts w) pred tuple
      else facts w' = facts w
  | Fault _ => True
  end.
Proof.
  induction turns as [|turns IH]; intros i w; simpl; [done|].
  unfold bind at 1. destruct (at_index words i w) as [w0 wa|] eqn:H0; [|done].
  pose proof (keeps_at_index words i w) as K0. rewrite H0 in K0.
  unfold bind at 1.
  match goal with |- context [match ?m wa with _ => _ end] =>
    assert (keeps_store m) as Kfound by keeps_store;
    specialize (Kfound wa); destruct (m wa) as [found wb|]; [|done]
  end.
  destruct found.
  - unfold bind at 1.
    destruct (at_index words (size_t_sub i 1) wb) as [ws wc|] eqn:H1; [|done].
    pose proof (keeps_at_index words (size_t_sub i 1) wb) as K1. rewrite H1 in K1.
    unfold bind at 1.
    destruct (at_index words (size_t_add i 2) wc) as [wr wd|] eqn:H2; [|done].
    pose proof (keeps_at_index words (size_t_add i 2) wc) as K2. rewrite H2 in K2.
    unfold bind at 1.
    destruct (at_index words (size_t_add i 4) wd) as [wo we|] eqn:H3; [|done].
    pose proof (keeps_at_index words (size_t_add i 4) wd) as K3. rewrite H3 in K3.
    unfold bind. rewrite addFact_run. simpl.
    eexists _, _. unfold with_fact. by rewrite K3, K2, K1, Kfound, K0.
  - specialize (IH (i + 1) wb).
    destruct (parseRelationship_scan words (i + 1) turns wb) as [returned w'|];
      [|done].
    destruct returned.
    + destruct IH as (pred & tuple & ->). eexists _, _. by rewrite Kfound, K0.
    + by rewrite IH, Kfound, K0.
Qed.

Lemma adds_parseRelationship words : adds_at_most_one (parseRelationship words).
Proof.
  intros w. unfold parseRelationship, bind at 1.
  pose proof (parseRelationship_scan_store words (length words) 0 w) as Hscan.
  destruct (parseRelationship_scan words 0 (length words) w) as [returned w1|];
    [|done].
  destruct returned; [by right|].
  match goal with |- context [?m w1] =>
    assert (adds_at_most_one m) as Hrest
  end.
  { destruct (3 <=? vsize words); [|apply adds_of_keeps, keeps_ret].
    repeat (apply adds_after_keeps; [apply keeps_at_index|intros ?]).
    apply adds_addFact. }
  specialize (Hrest w1). simpl in *.
  match goal with |- match ?o with _ => _ end => destruct o; [|done] end.
  by rewrite <- Hscan.
Qed.

Lemma adds_parseProperty words : adds_at_most_one (parseProperty words).
Proof.
  unfold parseProperty.
  apply adds_after_keeps; [keeps_store|]. intros [|].
  - repeat (apply adds_after_keeps; [apply keeps_at_index|intros ?]).
    apply adds_addFact.
  - apply adds_of_keeps, keeps_ret.
Qed.

Lemma adds_parseLivesIn_scan words turns : forall i,
  adds_at_most_one (parseLivesIn_scan words i turns).
Proof.
  induction turns as [|turns IH]; intros i; simpl.
  - apply adds_of_keeps, keeps_ret.
  - apply adds_after_keeps; [apply keeps_at_index|]. intros w0.
    apply adds_after_keeps; [keeps_store|]. intros [|]; [|apply IH].
    repeat (apply adds_after_keeps; [apply keeps_at_index|intros ?]).
    apply adds_addFact.
Qed.

(** [parseText], when it ends well, has added no fact or exactly one. *)
Lemma adds_parseText text : adds_at_most_one (parseText text).
Proof.
  unfold parseText.
  apply adds_after_keeps; [apply keeps_print|]. intros _.
  repeat match goal with
         | |- adds_at_most_one (if ?b then _ else _) => destruct b
         end;
    first [ apply adds_parseLivesIn_scan | apply adds_parseRelationship
          | apply adds_parseProperty | apply adds_of_keeps, keeps_print ].
Qed.

(** * The claims *)

(** C1. From any store, each of the four sentences adds exactly the one
    stated fact at the end of the sequence of its predicate and changes
    nothing else in the store. *)
Theorem statement_round_trip (w : World) :
  (exists w', parseText "John is the parent of Mary" w = Ok tt w'
              /\ facts w' = with_fact (facts w) "parent" ["john"; "mary"])
  /\ (exists w', parseText "John likes pizza" w = Ok tt w'
                 /\ facts w' = with_fact (facts w) "likes" ["john"; "pizza"])
  /\ (exists w', parseText "Alice is tall" w = Ok tt w'
                 /\ facts w' = with_fact (facts w) "tall" ["alice"])
  /\ (exists w', parseText "John lives in Paris" w = Ok tt w'
                 /\ facts w' = with_fact (facts w) "lives_in" ["john"; "paris"]).
Proof.
  destruct w as [db out].
  repeat split; cbv -[addFact]; rewrite addFact_run; simpl;
    eexists; (split; [reflexivity|]); reflexivity.
Qed.

(** C2. What the code answers to the five questions on the store that
    the five statements build.  Four
    answers are the stated ones.  [Is John the parent of Tom?] is read as
    subject [john], relation [the], object [parent]; no fact [the(john,
    parent)] is stored, so the answer is [No (or unknown)] although
    [parent(john, tom)] is in the store. *)
Theorem question_round_trip_as_coded :
  (exists w, statements initial = Ok tt w /\ facts w = facts family)
  /\ processQuery "Who is the parent of Mary?" family
    = Ok tt (wrote family [query_echo "Who is the parent of Mary?";
                           "Who:" +:+ endl; "  - john" +:+ endl])
  /\ processQuery "Is John the parent of Tom?" family
    = Ok tt (wrote family [query_echo "Is John the parent of Tom?";
                           "Answer: No (or unknown)" +:+ endl])
  /\ read_words (toLower "Is John the parent of Tom?")
    = ["is"; "john"; "the"; "parent"; "of"; "tom"]
  /\ query "parent" ["john"; "tom"] family = Ok [["john"; "tom"]] family
  /\ processQuery "Is Alice tall?" family
    = Ok tt (wrote family [query_echo "Is Alice tall?"; "Answer: Yes" +:+ endl])
  /\ processQuery "Where does John live?" family
    = Ok tt (wrote family [query_echo "Where does John live?";
                           "Location:" +:+ endl; "  - paris" +:+ endl])
  /\ processQuery "Is Mary tall?" family
    = Ok tt (wrote family [query_echo "Is Mary tall?";
                           "Answer: No (or unknown)" +:+ endl]).
Proof.
  split.
  - eexists. split; [vm_compute; reflexivity|]. vm_compute. reflexivity.
  - repeat split; vm_compute; reflexivity.
Qed.

(** C3. The scan of [query] skips a fact whose arity differs from the
    pattern's and goes on with the facts after it: the result is exactly
    the stored facts of the pattern's arity that fit the pattern, in stored
    order, whatever facts of other arities lie between them; a fact of
    another arity can be removed from the store without changing the
    result. *)
Theorem query_arity_filter (w : World) (predicate : string) (pattern : list string) :
  query predicate pattern w
  = Ok (filter (tuple_matches pattern) (stored (facts w) (toLower predicate))) w
  /\ (forall fact, fact ∈ filter (tuple_matches pattern) (stored (facts w) (toLower predicate))
        -> length fact = length pattern)
  /\ (forall before fact after,
        stored (facts w) (toLower predicate) = before ++ fact :: after ->
        length fact <> length pattern ->
        query predicate pattern w
        = Ok (filter (tuple_matches pattern) before
                ++ filter (tuple_matches pattern) after) w).
Proof.
  split; [apply query_run|]. split.
  - intros fact [Hm _]%list_elem_of_filter. by apply tuple_matches_length.
  - intros before fact after Hstored Harity.
    rewrite query_run, Hstored, filter_app, filter_cons_False; [done|].
    intros Hm%tuple_matches_length. done.
Qed.

Lemma query_arity_filter_witness :
  query "f" ["a"; "b"] mixed_arity = Ok [["a"; "b"]] mixed_arity
  /\ query "F" ["?"; "b"; "?"] mixed_arity = Ok [["a"; "b"; "c"]] mixed_arity.
Proof.
  split.
  - destruct (query_arity_filter mixed_arity "f" ["a"; "b"]) as (_ & _ & Hskip).
    apply (Hskip [] ["a"; "b"; "c"] [["a"; "b"]]).
    + reflexivity.
    + simpl. lia.
  - destruct (query_arity_filter mixed_arity "F" ["?"; "b"; "?"]) as (_ & _ & Hskip).
    apply (Hskip [["a"; "b"; "c"]] ["a"; "b"] []).
    + reflexivity.
    + simpl. lia.
Defined.

(** C4. After [addFact(P, A)], the query [query(P', A)] for any name [P']
    that folds to the same key as [P] (so for [P] itself) returns a list
    that contains [A]. *)
Theorem addFact_then_query (w : World) (P P' : string) (A : list string) :
  toLower P' = toLower P ->
  exists w1 results,
    addFact P A w = Ok tt w1
    /\ query P' A w1 = Ok results w1
    /\ A ∈ results.
Proof.
  intros Hfold. eexists _, _. split; [apply addFact_run|].
  split; [apply query_run|]. simpl.
  rewrite Hfold. unfold stored at 1. rewrite lookup_insert_eq. simpl.
  rewrite filter_app, filter_cons_True.
  - apply elem_of_app. right. left.
  - split; [done|]. intros i a f Ha Hf. right. congruence.
Qed.

Lemma addFact_then_query_witness :
  toLower "PARENT" = toLower "Parent" /\
  exists w1 results,
    addFact "Parent" ["john"; "mary"] initial = Ok tt w1
    /\ query "PARENT" ["john"; "mary"] w1 = Ok results w1
    /\ ["john"; "mary"] ∈ results.
Proof.
  split; [reflexivity|].
  apply (addFact_then_query initial "Parent" "PARENT" ["john"; "mary"]).
  reflexivity.
Defined.

(** C5. When every position of the pattern is the wildcard ["?"], the
    query returns exactly the tuples stored under the predicate whose arity
    is the pattern's, in stored order; stored order is insertion order, as
    a tuple added next comes last in the result. *)
Theorem query_all_wildcards (w : World) (P : string) (pattern : list string) :
  Forall (fun a => a = wildcard) pattern ->
  query P pattern w
  = Ok (filter (fun fact => length fact = length pattern)
               (stored (facts w) (toLower P))) w
  /\ forall (A : list string), exists w1,
       addFact P A w = Ok tt w1
       /\ query P pattern w1
          = Ok (filter (fun fact => length fact = length pattern)
                       (stored (facts w) (toLower P))
                  ++ (if decide (length A = length pattern) then [A] else [])) w1.
Proof.
  intros Hwild.
  assert (forall fact, tuple_matches pattern fact <-> length fact = length pattern) as Hiff.
  { intros fact. split; [by intros [? _]|]. intros Hlen. split; [done|].
    intros i a f Ha _. left.
    rewrite Forall_lookup in Hwild. exact (Hwild i a Ha). }
  split.
  - rewrite query_run. f_equal. by apply list_filter_iff.
  - intros A. eexists. split; [apply addFact_run|].
    rewrite query_run. simpl. f_equal.
    unfold stored at 1. rewrite lookup_insert_eq. simpl.
    rewrite (list_filter_iff _ _ _ Hiff), filter_app.
    destruct (decide (length A = length pattern)).
    + by rewrite filter_cons_True.
    + by rewrite filter_cons_False.
Qed.

Lemma query_all_wildcards_witness :
  query "f" ["?"; "?"] mixed_arity = Ok [["a"; "b"]] mixed_arity.
Proof.
  destruct (query_all_wildcards mixed_arity "f" ["?"; "?"]) as [Hq _].
  - repeat constructor.
  - exact Hq.
Defined.

(** C6, as the code has it.  Every question makes [processQuery] write
    the echo of the question.  A question that is not [incomplete] then
    gets a non-empty answer of one of the five shapes of [rendering]; an
    [incomplete] question gets nothing after its echo. *)
Theorem rendering_contract (question : string) (w : World) :
  exists text,
    processQuery question w = Ok tt (wrote w (query_echo question :: text))
    /\ if incomplete question then text = []
       else rendering (facts w) text /\ text <> [].
Proof.
  exists (answer question (facts w)). split; [apply processQuery_run|].
  unfold incomplete, answer. set (ql := toLower question).
  destruct (find "who is the" ql =? npos); simpl.
  2:{ destruct (find "of " ql =? npos); simpl; [done|].
      apply results_text_rendering. simpl. lia. }
  destruct (find "what does" ql =? npos); simpl.
  2:{ destruct (read_words _) as [|subject [|relation rest]]; try done.
      assert ((vsize (subject :: relation :: rest) <? 2) = false) as ->.
      { apply Z.ltb_ge. rewrite !vsize_cons. pose proof (vsize_nonneg rest). lia. }
      apply results_text_rendering. simpl. lia. }
  assert (forall words : list string,
    if vsize words <? 3
    then match words with
         | [_; subject; property] =>
             yes_no_text (lookup_results (facts w) property [subject])
         | _ :: subject :: relation :: object :: _ =>
             yes_no_text (lookup_results (facts w) relation [subject; object])
         | _ => []
         end = []
    else rendering (facts w)
           match words with
           | [_; subject; property] =>
               yes_no_text (lookup_results (facts w) property [subject])
           | _ :: subject :: relation :: object :: _ =>
               yes_no_text (lookup_results (facts w) relation [subject; object])
           | _ => []
           end
         /\ match words with
            | [_; subject; property] =>
                yes_no_text (lookup_results (facts w) property [subject])
            | _ :: subject :: relation :: object :: _ =>
                yes_no_text (lookup_results (facts w) relation [subject; object])
            | _ => []
            end <> []) as His.
  { intros [|a [|b [|c [|d rest]]]]; try done.
    - apply yes_no_text_rendering.
    - assert ((vsize (a :: b :: c :: d :: rest) <? 3) = false) as ->.
      { apply Z.ltb_ge. rewrite !vsize_cons. pose proof (vsize_nonneg rest). lia. }
      apply yes_no_text_rendering. }
  destruct (find "where does" ql =? npos); simpl.
  2:{ destruct (find "live" ql =? npos); simpl.
      2:{ apply results_text_rendering. simpl. lia. }
      destruct (find "is " ql =? 0); [apply His|].
      split; [constructor|done]. }
  destruct (find "is " ql =? 0); [apply His|].
  split; [constructor|done].
Qed.

(** C6, as stated, fails: three questions that fit the opening of a
    pattern get no answer at all after their echo. *)
Lemma unanswered_questions :
  ~ renders_an_answer "Who is the boss?" family
  /\ ~ renders_an_answer "What does John?" family
  /\ ~ renders_an_answer "Is it?" family.
Proof.
  repeat split; intros (w' & text & Hrun & Hout & Hsome);
    rewrite processQuery_run in Hrun; injection Hrun as <-;
    vm_compute in Hout; injection Hout as <-; done.
Qed.

(** C7. The statement parsers read [words[i-1]] and [words[i+4]] without
    a guard, and sentences reach the out-of-bounds reads: [is] matched at
    position 0 makes [i-1] wrap to [2^64 - 1]; a sentence that ends right
    after [of] passes the guard [i + 3 < size] and then reads index
    [i + 4 = size]; [lives] at position 0 wraps in the same way. *)
Theorem parsers_index_out_of_bounds (w : World) :
  (forall w0 w1 r w3 o,
     toLower w0 = "is" -> toLower w1 = "the" -> toLower w3 = "of" ->
     parseRelationship [w0; w1; r; w3; o] w = Fault undefined_index)
  /\ parseText "is the parent of Mary" w = Fault undefined_index
  /\ (forall s w1 w2 r w4,
        toLower w1 = "is" -> toLower w2 = "the" -> toLower w4 = "of" ->
        parseRelationship [s; w1; w2; r; w4] w = Fault undefined_index)
  /\ parseText "John is the parent of " w = Fault undefined_index
  /\ (forall w0 w1 place,
        toLower w0 = "lives" -> toLower w1 = "in" ->
        parseLivesIn [w0; w1; place] w = Fault undefined_index)
  /\ parseText "lives in Paris" w = Fault undefined_index
  /\ size_t_sub 0 1 = npos.
Proof.
  destruct w as [db out].
  split; [|split; [reflexivity|split; [|split; [reflexivity|split; [|split; reflexivity]]]]].
  - intros w0 w1 r w3 o H0 H1 H3.
    cbv -[toLower String.eqb removePunctuation addFact].
    rewrite H0, H1, H3. reflexivity.
  - intros s w1 w2 r w4 H1 H2 H4.
    cbv -[toLower String.eqb removePunctuation addFact].
    rewrite H1, H2, H4.
    destruct (String.eqb (toLower s) "is"); reflexivity.
  - intros w0 w1 place H0 H1.
    cbv -[toLower String.eqb removePunctuation addFact].
    rewrite H0, H1. reflexivity.
Qed.

Lemma parsers_index_out_of_bounds_witness :
  parseRelationship ["Is"; "THE"; "parent"; "of"; "Mary"] initial
  = Fault undefined_index
  /\ parseRelationship ["John"; "IS"; "The"; "parent"; "OF"] initial
     = Fault undefined_index
  /\ parseLivesIn ["Lives"; "IN"; "Paris"] initial = Fault undefined_index.
Proof.
  destruct (parsers_index_out_of_bounds initial)
    as (Hbefore & _ & Hpast & _ & Hlives & _).
  split; [|split].
  - apply (Hbefore "Is" "THE" "parent" "of" "Mary"); reflexivity.
  - apply (Hpast "John" "IS" "The" "parent" "OF"); reflexivity.
  - apply (Hlives "Lives" "IN" "Paris"); reflexivity.
Defined.

(** C8. Questions, lookups and the dump leave the fact store as it was;
    [addFact] puts exactly one tuple at the end of the sequence of one
    key and leaves the earlier tuples of that key and every other key as
    they were.  None of the four goes wrong.  A statement given to
    [parseText], when it ends well, has left the store as it was or has
    made one such addition. *)
Theorem store_read_only_or_append (w : World) :
  (forall question,
     exists w', processQuery question w = Ok tt w' /\ facts w' = facts w)
  /\ (forall P pattern, exists results, query P pattern w = Ok results w)
  /\ (exists w', printDatabase w = Ok tt w' /\ facts w' = facts w)
  /\ (forall P A,
        exists w', addFact P A w = Ok tt w'
          /\ stored (facts w') (toLower P) = stored (facts w) (toLower P) ++ [A]
          /\ forall key, key <> toLower P -> facts w' !! key = facts w !! key)
  /\ (forall text, adds_at_most_one (parseText text)).
Proof.
  split; [|split; [|split; [|split]]].
  - intros question. eexists. split; [apply processQuery_run|reflexivity].
  - intros P pattern. eexists. apply query_run.
  - destruct (printDatabase_run w) as [text ->]. by eexists.
  - intros P A. eexists. split; [apply addFact_run|]. simpl. split.
    + unfold stored at 1. by rewrite lookup_insert_eq.
    + intros key Hkey. by rewrite lookup_insert_ne.
  - apply adds_parseText.
Qed.

Lemma store_read_only_or_append_witness :
  exists w', addFact "Parent" ["john"; "tom"] family = Ok tt w'
    /\ stored (facts w') "parent" = [["john"; "mary"]; ["john"; "tom"]; ["john"; "tom"]]
    /\ facts w' !! "likes" = Some [["john"; "pizza"]].
Proof.
  destruct (store_read_only_or_append family) as (_ & _ & _ & Hadd & _).
  destruct (Hadd "Parent" ["john"; "tom"]) as (w' & Hrun & Hkey & Hothers).
  exists w'. split; [exact Hrun|]. split.
  - exact Hkey.
  - rewrite (Hothers "likes"); [reflexivity|discriminate].
Defined.

(** C9. A predicate that is not a key of the store (after case folding) is
    not an error: the query returns the empty list and the store is as it
    was. *)
Theorem query_unknown_predicate (w : World) (P : string) (pattern : list string) :
  facts w !! toLower P = None ->
  query P pattern w = Ok [] w.
Proof.
  intros Hnone. rewrite query_run. unfold stored. by rewrite Hnone.
Qed.

Lemma query_unknown_predicate_witness :
  query "Sibling" ["?"; "b"] mixed_arity = Ok [] mixed_arity.
Proof.
  apply (query_unknown_predicate mixed_arity "Sibling" ["?"; "b"]).
  reflexivity.
Defined.

(** C10, as the code has it.  For a question that has no [who is the],
    has [what does] and has it followed by a space: the ten characters at
    the place of the first ["what does "] are skipped and the rest is
    split into words with trailing punctuation removed.  With two words or
    more, the first is the subject and the second the relation, the query
    is [relation(subject, ?)], and the answer lists the second slot of
    each matching fact, or says that there is none.  With fewer than two
    words nothing is asked and nothing follows the echo. *)
Theorem what_does_pattern (question : string) (w : World) :
  let ql := toLower question in
  let pos := find "what does " ql in
  ssize question < size_t_modulus ->
  find "who is the" ql = npos ->
  find "what does" ql <> npos ->
  pos <> npos ->
  String.prefix "what does " (text_from ql pos) = true
  /\ match read_words (text_from ql (pos + 10)) with
     | subject :: relation :: _ =>
         processQuery question w
         = Ok tt (wrote w (query_echo question ::
             match lookup_results (facts w) relation [subject; wildcard] with
             | [] => ["Answer: No matches found." +:+ endl]
             | results => ("Answer:" +:+ endl) :: map (value_line 1) results
             end))
     | _ => processQuery question w = Ok tt (wrote w [query_echo question])
     end.
Proof.
  intros ql pos Hsmall Hwho Hwhat Hpos.
  split; [by apply find_prefix|].
  rewrite processQuery_run. unfold answer. fold ql. fold pos.
  apply Z.eqb_eq in Hwho. apply Z.eqb_neq in Hwhat. rewrite Hwho, Hwhat. simpl.
  pose proof (find_bounds _ _ Hpos) as [H0 Hle].
  fold pos in H0, Hle. change (ssize "what does ") with 10 in Hle.
  assert (ssize ql = ssize question) as Hql
    by (unfold ssize, ql; by rewrite toLower_length).
  assert (size_t_add pos 10 = pos + 10) as ->
    by (unfold size_t_add; apply Z.mod_small; lia).
  rewrite substr_text_to_end by lia.
  destruct (read_words (text_from ql (pos + 10))) as [|subject [|relation rest]];
    [done..|].
  rewrite (results_text_values _ _ [subject; wildcard]) by (simpl; lia).
  reflexivity.
Qed.

Lemma what_does_pattern_witness :
  processQuery "What does John likes?" family
  = Ok tt (wrote family [query_echo "What does John likes?";
                         "Answer:" +:+ endl; "  - pizza" +:+ endl]).
Proof.
  destruct (what_does_pattern "What does John likes?" family) as [_ Hrun].
  - reflexivity.
  - reflexivity.
  - discriminate.
  - discriminate.
  - exact Hrun.
Defined.

(** C10, as stated, fails for questions that have [what does]: with one
    word after it nothing is asked; [who is the] earlier in the list of
    patterns takes the question; and without the space after [does] the
    search for ["what does "] finds nothing to skip. *)
Lemma what_does_not_always :
  (find "what does" (toLower "What does John?") <> npos
   /\ ~ what_does_reading "What does John?" family)
  /\ (find "what does" (toLower "Who is the boss of what does John likes") <> npos
      /\ ~ what_does_reading "Who is the boss of what does John likes" family)
  /\ (find "what does" (toLower "What doesn't John like?") <> npos
      /\ ~ what_does_reading "What doesn't John like?" family).
Proof.
  split; [|split]; (split; [discriminate|]);
    intros (subject & relation & more & Hwords & Hrun);
    vm_compute in Hwords; try discriminate.
  injection Hwords as <- <- <-.
  apply (f_equal (fun o => match o with Ok _ w' => cout w' | Fault _ => [] end)) in Hrun.
  vm_compute in Hrun. discriminate.
Qed.

(** * Further properties of the code *)

(** ** Case folding and punctuation *)

Lemma tolower_idempotent c : tolower (tolower c) = tolower c.
Proof. destruct c as [[] [] [] [] [] [] [] []]; reflexivity. Qed.

Lemma ispunct_tolower c : ispunct (tolower c) = ispunct c.
Proof. destruct c as [[] [] [] [] [] [] [] []]; reflexivity. Qed.

Lemma isspace_tolower c : isspace (tolower c) = isspace c.
Proof. destruct c as [[] [] [] [] [] [] [] []]; reflexivity. Qed.

Lemma is_trim_char_tolower c : is_trim_char (tolower c) = is_trim_char c.
Proof. destruct c as [[] [] [] [] [] [] [] []]; reflexivity. Qed.

Lemma toLower_folded str : toLower (toLower str) = toLower str.
Proof.
  induction str as [|c str IH]; simpl; [done|].
  by rewrite tolower_idempotent, IH.
Qed.

(** X1. Case folding is idempotent and keeps the length: a folded name
    is its own key, so a predicate is found again under the name it was
    stored with. *)
Theorem toLower_idempotent (str : string) :
  toLower (toLower str) = toLower str
  /\ String.length (toLower str) = String.length str.
Proof. split; [apply toLower_folded|apply toLower_length]. Qed.

Lemma append_cons d (a b : string) : String d a +:+ b = String d (a +:+ b).
Proof. reflexivity. Qed.

Lemma append_empty_r (a : string) : a +:+ EmptyString = a.
Proof. induction a as [|d a IH]; [done|]. by rewrite append_cons, IH. Qed.

Lemma append_assoc_char (a : string) c b :
  (a +:+ String c EmptyString) +:+ b = a +:+ String c b.
Proof. induction a as [|d a IH]; [done|]. by rewrite !append_cons, IH. Qed.

Lemma append_assoc (a b c : string) : a +:+ (b +:+ c) = (a +:+ b) +:+ c.
Proof. induction a as [|d a IH]; [done|]. by rewrite !append_cons, IH. Qed.

Lemma string_forall_app p (a b : string) :
  string_forall p (a +:+ b) = string_forall p a && string_forall p b.
Proof.
  induction a as [|d a IH]; [done|].
  rewrite append_cons. simpl. by rewrite IH, andb_assoc.
Qed.

Lemma back_none str : back str = None -> str = EmptyString.
Proof.
  induction str as [|d str IH]; [done|].
  destruct str as [|e str]; [done|].
  change (back (String d (String e str))) with (back (String e str)).
  intros H. by specialize (IH H).
Qed.

Lemma back_pop_back str : forall c,
  back str = Some c -> str = pop_back str +:+ String c EmptyString.
Proof.
  induction str as [|d str IH]; intros c H; [done|].
  destruct str as [|e str].
  - simpl in H. by simplify_eq.
  - change (back (String d (String e str))) with (back (String e str)) in H.
    change (pop_back (String d (String e str)))
      with (String d (pop_back (String e str))).
    rewrite append_cons. f_equal. by apply IH.
Qed.

Lemma removePunctuation_loop_split turns : forall str,
  exists tail,
    str = removePunctuation_loop turns str +:+ tail
    /\ string_forall ispunct tail = true.
Proof.
  induction turns as [|turns IH]; intros str; simpl.
  - exists EmptyString. by rewrite append_empty_r.
  - assert (exists tail, str = str +:+ tail /\ string_forall ispunct tail = true)
      as Hsame by (exists EmptyString; by rewrite append_empty_r).
    destruct (back str) as [c|] eqn:Hback; [|done].
    destruct (ispunct c) eqn:Hpunct; [|done].
    destruct (IH (pop_back str)) as (tail & Heq & Htail).
    exists (tail +:+ String c EmptyString). split.
    + rewrite append_assoc, <- Heq. by apply back_pop_back.
    + rewrite string_forall_app, Htail. simpl. by rewrite Hpunct.
Qed.

(** X2. [removePunctuation] removes exactly the longest run of punctuation
    at the end of its argument: the argument is the result followed by
    punctuation only, and the result is empty or ends in a character that
    is not punctuation. *)
Theorem removePunctuation_strips_trailing (str : string) :
  (exists tail,
     str = removePunctuation str +:+ tail
     /\ string_forall ispunct tail = true)
  /\ match back (removePunctuation str) with
     | Some c => ispunct c = false
     | None => removePunctuation str = EmptyString
     end.
Proof.
  split; [apply removePunctuation_loop_split|].
  pose proof (removePunctuation_done str) as Hdone.
  destruct (back (removePunctuation str)) eqn:Hback; [done|].
  by apply back_none.
Qed.

Lemma back_toLower str : back (toLower str) = option_map tolower (back str).
Proof.
  induction str as [|d str IH]; [done|].
  destruct str as [|e str]; [done|].
  change (back (toLower (String d (String e str))))
    with (back (toLower (String e str))).
  by rewrite IH.
Qed.

Lemma pop_back_toLower str : pop_back (toLower str) = toLower (pop_back str).
Proof.
  induction str as [|d str IH]; [done|].
  destruct str as [|e str]; [done|].
  change (pop_back (toLower (String d (String e str))))
    with (String (tolower d) (pop_back (toLower (String e str)))).
  by rewrite IH.
Qed.

Lemma removePunctuation_loop_toLower turns : forall str,
  removePunctuation_loop turns (toLower str)
  = toLower (removePunctuation_loop turns str).
Proof.
  induction turns as [|turns IH]; intros str; simpl; [done|].
  rewrite back_toLower. destruct (back str) as [c|]; simpl; [|done].
  rewrite ispunct_tolower. destruct (ispunct c); [|done].
  by rewrite pop_back_toLower, IH.
Qed.

Lemma removePunctuation_fixed str :
  match back str with
  | Some c => ispunct c = false
  | None => True
  end ->
  removePunctuation str = str.
Proof.
  unfold removePunctuation. destruct str as [|d str]; [done|].
  simpl String.length. cbn [removePunctuation_loop].
  destruct (back (String d str)) as [c|]; [|done].
  by intros ->.
Qed.

Lemma removePunctuation_toLower word :
  removePunctuation (toLower word) = toLower (removePunctuation word).
Proof.
  unfold removePunctuation.
  by rewrite toLower_length, removePunctuation_loop_toLower.
Qed.

(** X3. The two steps that turn a word into an atom commute, and an atom
    is stable: folding and stripping it again gives the same atom.  So an
    atom read back from the store and put in a pattern is its own normal
    form. *)
Theorem atom_normal_form (word : string) :
  removePunctuation (toLower word) = toLower (removePunctuation word)
  /\ removePunctuation (toLower (removePunctuation (toLower word)))
     = removePunctuation (toLower word).
Proof.
  split; [apply removePunctuation_toLower|].
  rewrite (removePunctuation_toLower word) at 1.
  rewrite toLower_folded, <- (removePunctuation_toLower word).
  apply removePunctuation_fixed, removePunctuation_done.
Qed.

(** ** How additions and lookups compose *)

Lemma stored_with_fact db pred tuple key :
  stored (with_fact db pred tuple) key
  = stored db key ++ (if decide (key = pred) then [tuple] else []).
Proof.
  unfold with_fact, stored at 1. destruct (decide (key = pred)) as [->|Hne].
  - by rewrite lookup_insert_eq.
  - rewrite lookup_insert_ne by done. fold (stored db key). by rewrite app_nil_r.
Qed.

(** X4. After [addFact(P, A)] every lookup gives what it gave before,
    followed by [A] when the name folds to the key of [P] and the pattern
    fits [A]; lookups under every other key are not affected. *)
Theorem query_after_addFact (w : World) (P : string) (A : list string) :
  exists w1,
    addFact P A w = Ok tt w1
    /\ forall (Q : string) (pattern : list string),
         query Q pattern w1
         = Ok (lookup_results (facts w) Q pattern
                 ++ (if decide (toLower Q = toLower P /\ tuple_matches pattern A)
                     then [A] else [])) w1.
Proof.
  eexists. split; [apply addFact_run|]. intros Q pattern.
  rewrite query_run. f_equal. simpl. fold (with_fact (facts w) (toLower P) A).
  rewrite stored_with_fact, filter_app. unfold lookup_results. f_equal.
  destruct (decide (toLower Q = toLower P)) as [Hkey|Hkey].
  - destruct (decide (tuple_matches pattern A)) as [Hfit|Hfit].
    + rewrite filter_cons_True by done.
      by rewrite decide_True by done.
    + rewrite filter_cons_False by done.
      by rewrite decide_False by tauto.
  - by rewrite decide_False by tauto.
Qed.

(** X5. The store keeps duplicates: adding the same fact twice puts two
    copies at the end of the sequence, and an exact lookup then returns
    both. *)
Theorem addFact_keeps_duplicates (w : World) (P : string) (A : list string) :
  exists w2,
    (addFact P A ;; addFact P A) w = Ok tt w2
    /\ stored (facts w2) (toLower P) = stored (facts w) (toLower P) ++ [A; A]
    /\ query P A w2 = Ok (lookup_results (facts w) P A ++ [A; A]) w2.
Proof.
  eexists. split.
  { erewrite bind_ok by apply addFact_run. apply addFact_run. }
  assert (tuple_matches A A) as Hself.
  { split; [done|]. intros i a f Ha Hf. right. congruence. }
  simpl. split.
  - unfold stored at 1. rewrite lookup_insert_eq. simpl.
    unfold stored at 1. rewrite lookup_insert_eq. simpl.
    by rewrite <- app_assoc.
  - rewrite query_run. f_equal. simpl.
    unfold stored at 1. rewrite lookup_insert_eq. simpl.
    unfold stored at 1. rewrite lookup_insert_eq. simpl.
    rewrite !filter_app. unfold lookup_results. rewrite <- app_assoc. f_equal.
    by rewrite !filter_cons_True by done.
Qed.

(** One pattern is another with some atoms replaced by the wildcard. *)
Lemma generalises_matches general pattern fact :
  Forall2 (fun g a => g = wildcard \/ g = a) general pattern ->
  tuple_matches pattern fact -> tuple_matches general fact.
Proof.
  intros Hgen [Hlen Hpos]. pose proof (Forall2_length _ _ _ Hgen) as Hglen.
  split; [congruence|]. intros i g f Hg Hf.
  destruct (lookup_lt_is_Some_2 pattern i) as [a Ha].
  { rewrite <- Hglen. by eapply lookup_lt_Some. }
  destruct (Forall2_lookup_lr _ _ _ _ _ _ Hgen Hg Ha) as [->| ->].
  - by left.
  - by eapply Hpos.
Qed.

Lemma filter_sublist_impl {A} (P Q : A -> Prop)
    `{!forall x, Decision (P x)} `{!forall x, Decision (Q x)} (l : list A) :
  (forall x, P x -> Q x) -> filter P l `sublist_of` filter Q l.
Proof.
  intros Himpl. induction l as [|x l IH]; [done|].
  destruct (decide (P x)) as [HP|HP].
  - rewrite !filter_cons_True by auto. by constructor.
  - rewrite (filter_cons_False P) by done.
    destruct (decide (Q x)).
    + rewrite filter_cons_True by done. by constructor.
    + by rewrite filter_cons_False by done.
Qed.

(** X6. Putting the wildcard in place of atoms of a pattern can only add
    results: the results of the pattern are a sublist, in the same order,
    of the results of the more general pattern. *)
Theorem wildcard_generalises (w : World) (P : string) (general pattern : list string) :
  Forall2 (fun g a => g = wildcard \/ g = a) general pattern ->
  exists results more,
    query P pattern w = Ok results w
    /\ query P general w = Ok more w
    /\ results `sublist_of` more.
Proof.
  intros Hgen. eexists _, _. split; [apply query_run|].
  split; [apply query_run|].
  apply filter_sublist_impl. intros fact. by apply generalises_matches.
Qed.

Lemma wildcard_generalises_witness :
  exists results more,
    query "parent" ["john"; "tom"] family = Ok results family
    /\ query "parent" ["john"; "?"] family = Ok more family
    /\ results `sublist_of` more.
Proof.
  apply (wildcard_generalises family "parent" ["john"; "?"] ["john"; "tom"]).
  constructor; [by right|]. constructor; [by left|]. constructor.
Defined.

(** X7. A lookup does not depend on letter case: two predicate names that
    fold to the same key, and two patterns whose atoms fold to the same
    text and have the wildcard at the same places, give the same result. *)
Theorem query_case_insensitive (w : World) (P1 P2 : string)
    (pattern1 pattern2 : list string) :
  toLower P1 = toLower P2 ->
  Forall2 (fun a b => toLower a = toLower b /\ (a = wildcard <-> b = wildcard))
          pattern1 pattern2 ->
  query P1 pattern1 w = query P2 pattern2 w.
Proof.
  intros Hkey Hsame. rewrite !query_run, Hkey. f_equal.
  apply list_filter_iff. intros fact.
  pose proof (Forall2_length _ _ _ Hsame) as Hlen.
  split; intros [Hflen Hpos]; (split; [congruence|]); intros i a f Ha Hf.
  - destruct (lookup_lt_is_Some_2 pattern1 i) as [b Hb].
    { rewrite Hlen. by eapply lookup_lt_Some. }
    destruct (Forall2_lookup_lr _ _ _ _ _ _ Hsame Hb Ha) as [Hfold Hwild].
    destruct (Hpos i b f Hb Hf) as [Hw|Hw]; [left; tauto|right; congruence].
  - destruct (lookup_lt_is_Some_2 pattern2 i) as [b Hb].
    { rewrite <- Hlen. by eapply lookup_lt_Some. }
    destruct (Forall2_lookup_lr _ _ _ _ _ _ Hsame Ha Hb) as [Hfold Hwild].
    destruct (Hpos i b f Hb Hf) as [Hw|Hw]; [left; tauto|right; congruence].
Qed.

Lemma query_case_insensitive_witness :
  query "Parent" ["JOHN"; "?"] family = query "PARENT" ["john"; "?"] family.
Proof.
  apply (query_case_insensitive family "Parent" "PARENT"
           ["JOHN"; "?"] ["john"; "?"]).
  - reflexivity.
  - repeat constructor; intros; discriminate.
Defined.

(** ** What the statement interpreter stores *)

Lemma statement_of_keeps {A} (m : M A) : keeps_store m -> adds_statement_fact m.
Proof. intros Hm w. specialize (Hm w). destruct (m w); auto. Qed.

Lemma statement_after_keeps {A B} (m : M A) (k : A -> M B) :
  keeps_store m -> (forall a, adds_statement_fact (k a)) ->
  adds_statement_fact (bind m k).
Proof.
  intros Hm Hk w. unfold bind. specialize (Hm w).
  destruct (m w) as [a w1|]; [|done].
  specialize (Hk a w1). destruct (k a w1); [|done]. by rewrite <- Hm.
Qed.

Lemma statement_addFact pred tuple :
  statement_fact pred tuple -> adds_statement_fact (addFact pred tuple).
Proof. intros Hfact w. rewrite addFact_run. simpl. right. by eexists _, _. Qed.

Lemma parseRelationship_scan_statement words turns : forall i w,
  match parseRelationship_scan words i turns w with
  | Ok returned w' =>
      if returned
      then exists pred tuple,
             statement_fact pred tuple
             /\ facts w' = with_fact (facts w) (toLower pred) tuple
      else facts w' = facts w
  | Fault _ => True
  end.
Proof.
  induction turns as [|turns IH]; intros i w; simpl; [done|].
  unfold bind at 1. destruct (at_index words i w) as [w0 wa|] eqn:H0; [|done].
  pose proof (keeps_at_index words i w) as K0. rewrite H0 in K0.
  unfold bind at 1.
  match goal with |- context [match ?m wa with _ => _ end] =>
    assert (keeps_store m) as Kfound by keeps_store;
    specialize (Kfound wa); destruct (m wa) as [found wb|]; [|done]
  end.
  destruct found.
  - unfold bind at 1.
    destruct (at_index words (size_t_sub i 1) wb) as [ws wc|] eqn:H1; [|done].
    pose proof (keeps_at_index words (size_t_sub i 1) wb) as K1. rewrite H1 in K1.
    unfold bind at 1.
    destruct (at_index words (size_t_add i 2) wc) as [wr wd|] eqn:H2; [|done].
    pose proof (keeps_at_index words (size_t_add i 2) wc) as K2. rewrite H2 in K2.
    unfold bind at 1.
    destruct (at_index words (size_t_add i 4) wd) as [wo we|] eqn:H3; [|done].
    pose proof (keeps_at_index words (size_t_add i 4) wd) as K3. rewrite H3 in K3.
    unfold bind. rewrite addFact_run. simpl.
    eexists _, _. split; [apply (relation_fact ws wr wo)|].
    unfold with_fact. by rewrite K3, K2, K1, Kfound, K0.
  - specialize (IH (i + 1) wb).
    destruct (parseRelationship_scan words (i + 1) turns wb) as [returned w'|];
      [|done].
    destruct returned.
    + destruct IH as (pred & tuple & Hfact & ->).
      eexists _, _. split; [exact Hfact|]. by rewrite Kfound, K0.
    + by rewrite IH, Kfound, K0.
Qed.

Lemma statement_parseRelationship words :
  adds_statement_fact (parseRelationship words).
Proof.
  intros w. unfold parseRelationship, bind at 1.
  pose proof (parseRelationship_scan_statement words (length words) 0 w) as Hscan.
  destruct (parseRelationship_scan words 0 (length words) w) as [returned w1|];
    [|done].
  destruct returned; [by right|].
  match goal with |- context [?m w1] =>
    assert (adds_statement_fact m) as Hrest
  end.
  { destruct (3 <=? vsize words); [|apply statement_of_keeps, keeps_ret].
    repeat (apply statement_after_keeps; [apply keeps_at_index|intros ?]).
    apply statement_addFact. constructor. }
  specialize (Hrest w1). simpl in *.
  match goal with |- match ?o with _ => _ end => destruct o; [|done] end.
  by rewrite <- Hscan.
Qed.

Lemma statement_parseProperty words : adds_statement_fact (parseProperty words).
Proof.
  unfold parseProperty.
  apply statement_after_keeps; [keeps_store|]. intros [|].
  - repeat (apply statement_after_keeps; [apply keeps_at_index|intros ?]).
    apply statement_addFact. constructor.
  - apply statement_of_keeps, keeps_ret.
Qed.

Lemma statement_parseLivesIn_scan words turns : forall i,
  adds_statement_fact (parseLivesIn_scan words i turns).
Proof.
  induction turns as [|turns IH]; intros i; simpl.
  - apply statement_of_keeps, keeps_ret.
  - apply statement_after_keeps; [apply keeps_at_index|]. intros w0.
    apply statement_after_keeps; [keeps_store|]. intros [|]; [|apply IH].
    repeat (apply statement_after_keeps; [apply keeps_at_index|intros ?]).
    apply statement_addFact. constructor.
Qed.

Lemma statement_parseText text : adds_statement_fact (parseText text).
Proof.
  unfold parseText.
  apply statement_after_keeps; [apply keeps_print|]. intros _.
  repeat match goal with
         | |- adds_statement_fact (if ?b then _ else _) => destruct b
         end;
    first [ apply statement_parseLivesIn_scan | apply statement_parseRelationship
          | apply statement_parseProperty | apply statement_of_keeps, keeps_print ].
Qed.

Lemma atom_is_normal word :
  toLower (removePunctuation (toLower word)) = removePunctuation (toLower word)
  /\ removePunctuation (removePunctuation (toLower word))
     = removePunctuation (toLower word).
Proof.
  split.
  - rewrite removePunctuation_toLower. apply toLower_folded.
  - apply removePunctuation_fixed, removePunctuation_done.
Qed.

(** X8. A statement never stores anything but normal atoms: when
    [parseText] ends well it has added nothing, or one fact of one or two
    atoms under a key, and the key and every atom are lower-case and have
    no trailing punctuation. *)
Theorem parseText_stores_normal_atoms (text : string) (w w' : World) :
  parseText text w = Ok tt w' ->
  facts w' = facts w
  \/ exists pred tuple,
       facts w' = with_fact (facts w) pred tuple
       /\ (length tuple = 1 \/ length tuple = 2)%nat
       /\ Forall (fun atom => toLower atom = atom /\ removePunctuation atom = atom)
                 (pred :: tuple).
Proof.
  intros Hrun. pose proof (statement_parseText text w) as Hfact.
  rewrite Hrun in Hfact. destruct Hfact as [Hsame|(pred & tuple & Hfact & Hstore)];
    [by left|right].
  exists (toLower pred), tuple. split; [done|].
  destruct Hfact as [s r o|s p|s l]; simpl;
    (split; [auto|]);
    repeat (apply Forall_cons; split);
    try apply Forall_nil; try apply atom_is_normal; try done.
  all: rewrite !(proj1 (atom_is_normal _)); split; [done|apply atom_is_normal].
Qed.

Lemma parseText_stores_normal_atoms_witness :
  exists w',
    parseText "John, is the PARENT of Mary!" initial = Ok tt w'
    /\ facts w' = with_fact ∅ "parent" ["john"; "mary"].
Proof.
  eexists. split; [vm_compute; reflexivity|].
  destruct (parseText_stores_normal_atoms "John, is the PARENT of Mary!" initial
              _ eq_refl) as [Hsame|(pred & tuple & Hstore & _)].
  - vm_compute in Hsame. discriminate.
  - vm_compute. reflexivity.
Defined.

(** ** An invariant of the store *)

Lemma with_fact_well_formed db pred tuple :
  store_well_formed db -> toLower pred = pred ->
  store_well_formed (with_fact db pred tuple).
Proof.
  intros Hwf Hpred key tuples. unfold with_fact.
  destruct (decide (key = pred)) as [->|Hne].
  - rewrite lookup_insert_eq. intros [= <-]. split; [done|].
    by destruct (stored db pred).
  - rewrite lookup_insert_ne by done. apply Hwf.
Qed.

(** X9. The store is well formed at the start and stays so: whatever
    name [addFact] is given, the key it writes is lower-case and gets a
    non-empty sequence; a statement, a question, a lookup (also of an
    unknown predicate) and the dump never create a key. *)
Theorem store_stays_well_formed :
  store_well_formed (facts initial)
  /\ forall w, store_well_formed (facts w) ->
       (forall P A w', addFact P A w = Ok tt w' -> store_well_formed (facts w'))
       /\ (forall text w', parseText text w = Ok tt w' -> store_well_formed (facts w'))
       /\ (forall Q pattern results w',
             query Q pattern w = Ok results w' -> facts w' = facts w)
       /\ (forall question w',
             processQuery question w = Ok tt w' -> facts w' = facts w)
       /\ (forall w', printDatabase w = Ok tt w' -> facts w' = facts w).
Proof.
  split; [by intros key tuples|]. intros w Hwf.
  split; [|split; [|split; [|split]]].
  - intros P A w'. rewrite addFact_run. intros [= <-]. simpl.
    apply (with_fact_well_formed _ (toLower P) A Hwf), toLower_folded.
  - intros text w' Hrun. pose proof (statement_parseText text w) as Hfact.
    rewrite Hrun in Hfact.
    destruct Hfact as [->|(pred & tuple & _ & ->)]; [done|].
    apply with_fact_well_formed; [done|apply toLower_folded].
  - intros Q pattern results w'. rewrite query_run. by intros [= _ <-].
  - intros question w'. rewrite processQuery_run. by intros [= <-].
  - intros w'. destruct (printDatabase_run w) as [text ->]. by intros [= <-].
Qed.

Lemma store_stays_well_formed_witness :
  exists w', addFact "PARENT" ["john"; "mary"] initial = Ok tt w'
    /\ store_well_formed (facts w').
Proof.
  eexists. split; [vm_compute; reflexivity|].
  destruct store_stays_well_formed as [Hstart Hkept].
  destruct (Hkept initial Hstart) as (Hadd & _).
  apply (Hadd "PARENT" ["john"; "mary"]). vm_compute. reflexivity.
Defined.

(** ** The dump *)

Lemma print_facts_text name : forall (tuples : list (list string)) w,
  print_facts name tuples w = Ok tt (wrote w (facts_text name tuples)).
Proof.
  induction tuples as [|fact rest IH]; intros w; simpl.
  - unfold ret. by rewrite wrote_nil.
  - erewrite bind_ok by apply print_wrote.
    erewrite bind_ok by (apply (print_arguments_wrote fact _ 0%nat); lia).
    erewrite bind_ok by apply print_wrote.
    by rewrite IH, !wrote_wrote.
Qed.

Lemma print_predicates_text : forall (entries : list (string * list (list string))) w,
  print_predicates entries w = Ok tt (wrote w (predicates_text entries)).
Proof.
  induction entries as [|predicate rest IH]; intros w; simpl.
  - unfold ret. by rewrite wrote_nil.
  - erewrite bind_ok by apply print_wrote.
    erewrite bind_ok by apply print_facts_text.
    by rewrite IH, !wrote_wrote.
Qed.

(** X10. The dump never fails and its text depends on the store alone, so
    two dumps in a row print the same text twice.  An empty store gives
    the line [Database is empty.]; otherwise every pair of the store is
    listed once, the predicates in increasing order of their keys. *)
Theorem printDatabase_text (w : World) :
  exists entries,
    entries ≡ₚ map_to_list (facts w)
    /\ StronglySorted (fun a b => String.le a.1 b.1) entries
    /\ printDatabase w = Ok tt (wrote w (database_text (facts w) entries))
    /\ (printDatabase ;; printDatabase) w
       = Ok tt (wrote w (database_text (facts w) entries
                           ++ database_text (facts w) entries)).
Proof.
  exists (merge_sort (fun a b => String.le a.1 b.1) (map_to_list (facts w))).
  split; [apply merge_sort_Permutation|].
  split; [apply (StronglySorted_merge_sort _)|].
  assert (forall w0, facts w0 = facts w ->
    printDatabase w0
    = Ok tt (wrote w0 (database_text (facts w)
        (merge_sort (fun a b => String.le a.1 b.1) (map_to_list (facts w))))))
    as Hdump.
  { intros w0 Hsame. unfold printDatabase, database_text.
    erewrite bind_ok by apply print_wrote.
    erewrite bind_ok by reflexivity. simpl. rewrite Hsame.
    destruct (decide (facts w = ∅)) as [Hempty|Hfull].
    - rewrite bool_decide_eq_true_2 by done.
      by rewrite print_wrote, wrote_wrote.
    - rewrite bool_decide_eq_false_2 by done.
      erewrite bind_ok by reflexivity. simpl. rewrite Hsame.
      erewrite bind_ok by apply print_predicates_text.
      by rewrite print_wrote, !wrote_wrote. }
  split; [by apply Hdump|].
  erewrite bind_ok by (by apply Hdump).
  rewrite Hdump by done. by rewrite wrote_wrote.
Qed.

(** ** The statement patterns, word by word *)

Lemma size_t_add_small a b :
  0 <= a + b < size_t_modulus -> size_t_add a b = a + b.
Proof. intros H. unfold size_t_add. by apply Z.mod_small. Qed.

Lemma size_t_sub_small a b :
  0 <= a - b < size_t_modulus -> size_t_sub a b = a - b.
Proof. intros H. unfold size_t_sub. by apply Z.mod_small. Qed.

Lemma at_index_past {A} (v : list A) i w :
  vsize v <= i -> at_index v i w = Fault undefined_index.
Proof.
  intros H. unfold at_index.
  assert ((i <? vsize v) = false) as -> by (apply Z.ltb_ge; lia).
  by rewrite andb_false_r.
Qed.

Lemma parseLivesIn_scan_match words (i turns : nat) w :
  vsize words < size_t_modulus - 4 ->
  lives_in_at words i ->
  parseLivesIn_scan words (Z.of_nat i) (S turns) w
  = lives_in_body words (Z.of_nat i) w.
Proof.
  intros Hsmall (a & b & Ha & Hlives & Hb & Hin & Hlen).
  cbn [parseLivesIn_scan].
  erewrite bind_ok by (by apply at_index_lookup).
  rewrite Hlives. unfold vsize in *.
  rewrite (size_t_add_small _ 2), (size_t_add_small _ 1) by lia.
  assert ((Z.of_nat i + 2 <? Z.of_nat (length words)) = true) as ->
    by (apply Z.ltb_lt; lia).
  replace (Z.of_nat i + 1) with (Z.of_nat (i + 1)) by lia.
  erewrite bind_ok.
  2:{ simpl. erewrite bind_ok by (by apply at_index_lookup). by rewrite Hin. }
  simpl. unfold lives_in_body, vsize.
  by rewrite (size_t_add_small _ 2) by lia.
Qed.

Lemma parseLivesIn_scan_skip words (i turns : nat) w :
  vsize words < size_t_modulus - 4 ->
  (i < length words)%nat ->
  ~ lives_in_at words i ->
  parseLivesIn_scan words (Z.of_nat i) (S turns) w
  = parseLivesIn_scan words (Z.of_nat (S i)) turns w.
Proof.
  intros Hsmall Hi Hnot.
  destruct (lookup_lt_is_Some_2 words i Hi) as [a Ha].
  cbn [parseLivesIn_scan].
  erewrite bind_ok by (by apply at_index_lookup).
  unfold vsize in *. rewrite (size_t_add_small _ 2) by lia.
  replace (Z.of_nat i + 1) with (Z.of_nat (S i)) by lia.
  destruct (String.eqb (toLower a) "lives") eqn:Hlives; simpl;
    [|by erewrite bind_ok by reflexivity].
  apply String.eqb_eq in Hlives.
  destruct (Z.of_nat i + 2 <? Z.of_nat (length words)) eqn:Hlen;
    [|by erewrite bind_ok by reflexivity].
  apply Z.ltb_lt in Hlen.
  destruct (lookup_lt_is_Some_2 words (i + 1)) as [b Hb]; [lia|].
  rewrite (size_t_add_small _ 1) by lia.
  replace (Z.of_nat i + 1) with (Z.of_nat (i + 1)) by lia.
  erewrite bind_ok.
  2:{ erewrite bind_ok by (by apply at_index_lookup). reflexivity. }
  destruct (String.eqb (toLower b) "in") eqn:Hin; [|done].
  apply String.eqb_eq in Hin. exfalso. apply Hnot.
  exists a, b. repeat split; try done. lia.
Qed.

Lemma parseLivesIn_scan_none words turns : forall (i : nat) w,
  vsize words < size_t_modulus - 4 ->
  (i + turns = length words)%nat ->
  (forall k, (i <= k)%nat -> ~ lives_in_at words k) ->
  parseLivesIn_scan words (Z.of_nat i) turns w = Ok tt w.
Proof.
  induction turns as [|turns IH]; intros i w Hsmall Hlen Hnone; [done|].
  rewrite parseLivesIn_scan_skip by (try done; try lia; by apply Hnone).
  apply IH; [done|lia|]. intros k Hk. apply Hnone. lia.
Qed.

Lemma parseLivesIn_scan_first words turns : forall (i k : nat) w,
  vsize words < size_t_modulus - 4 ->
  (i + turns = length words)%nat ->
  (i <= k)%nat ->
  lives_in_at words k ->
  (forall j, (i <= j < k)%nat -> ~ lives_in_at words j) ->
  parseLivesIn_scan words (Z.of_nat i) turns w
  = lives_in_body words (Z.of_nat k) w.
Proof.
  induction turns as [|turns IH]; intros i k w Hsmall Hlen Hik Hk Hfirst.
  - destruct Hk as (_ & _ & _ & _ & _ & _ & Hk). lia.
  - destruct (decide (i = k)) as [->|Hne].
    + by apply parseLivesIn_scan_match.
    + rewrite parseLivesIn_scan_skip by (try done; try lia; apply Hfirst; lia).
      apply IH; try done; try lia. intros j Hj. apply Hfirst. lia.
Qed.

(** X11. [parseLivesIn] acts on the first place where [lives in] stands
    with a word after it.  With no such place it stores nothing and says
    nothing.  When the place is the first word the read of the word before
    it is out of bounds.  Otherwise the fact is
    [lives_in(word before, word after in)], and words after that are
    ignored. *)
Theorem parseLivesIn_first_match (words : list string) (w : World) :
  vsize words < size_t_modulus - 4 ->
  ((forall k, ~ lives_in_at words k) -> parseLivesIn words w = Ok tt w)
  /\ (lives_in_at words 0 -> parseLivesIn words w = Fault undefined_index)
  /\ (forall k subject location,
        lives_in_at words (S k) ->
        (forall j, (j <= k)%nat -> ~ lives_in_at words j) ->
        words !! k = Some subject ->
        words !! (k + 3)%nat = Some location ->
        parseLivesIn words w
        = addFact "lives_in" [removePunctuation (toLower subject);
                              removePunctuation (toLower location)] w).
Proof.
  intros Hsmall. unfold parseLivesIn. split; [|split].
  - intros Hnone. apply (parseLivesIn_scan_none words _ 0%nat); auto.
  - intros Hzero.
    rewrite (parseLivesIn_scan_first words _ 0%nat 0%nat) by (auto; lia).
    unfold lives_in_body. change (size_t_sub (Z.of_nat 0) 1) with npos.
    unfold bind. rewrite at_index_past; [done|]. unfold npos. lia.
  - intros k subject location Hk Hfirst Hs Hl.
    rewrite (parseLivesIn_scan_first words _ 0%nat (S k));
      [|done|done|lia|done|intros j Hj; apply Hfirst; lia].
    unfold lives_in_body.
    pose proof (lookup_lt_Some _ _ _ Hl) as Hlen. unfold vsize in Hsmall.
    rewrite size_t_sub_small, size_t_add_small by lia.
    replace (Z.of_nat (S k) - 1) with (Z.of_nat k) by lia.
    replace (Z.of_nat (S k) + 2) with (Z.of_nat (k + 3)) by lia.
    erewrite bind_ok by (by apply at_index_lookup).
    erewrite bind_ok by (by apply at_index_lookup). reflexivity.
Qed.

Lemma parseLivesIn_first_match_witness :
  parseLivesIn ["Old"; "John"; "LIVES"; "In"; "Paris,"; "France"] initial
  = addFact "lives_in" ["john"; "paris"] initial.
Proof.
  destruct (parseLivesIn_first_match
              ["Old"; "John"; "LIVES"; "In"; "Paris,"; "France"] initial)
    as (_ & _ & Hfirst).
  - reflexivity.
  - apply (Hfirst 1%nat "John" "Paris,").
    + exists "LIVES", "In". repeat split; simpl; lia.
    + intros j Hj (a & b & Ha & Hlives & _).
      destruct j as [|[|j]]; [| |lia]; simpl in Ha; injection Ha as <-;
        discriminate.
    + reflexivity.
    + reflexivity.
Defined.

Lemma parseRelationship_scan_match words (i turns : nat) w :
  vsize words < size_t_modulus - 4 ->
  relation_at words i ->
  parseRelationship_scan words (Z.of_nat i) (S turns) w
  = relation_body words (Z.of_nat i) w.
Proof.
  intros Hsmall (a & b & c & Ha & His & Hb & Hthe & Hc & Hof).
  pose proof (lookup_lt_Some _ _ _ Hc) as Hlen.
  cbn [parseRelationship_scan].
  erewrite bind_ok by (by apply at_index_lookup).
  rewrite His. unfold vsize in *.
  rewrite (size_t_add_small _ 3), (size_t_add_small _ 1) by lia.
  assert ((Z.of_nat i + 3 <? Z.of_nat (length words)) = true) as ->
    by (apply Z.ltb_lt; lia).
  replace (Z.of_nat i + 1) with (Z.of_nat (i + 1)) by lia.
  replace (Z.of_nat i + 3) with (Z.of_nat (i + 3)) by lia.
  erewrite bind_ok.
  2:{ simpl. erewrite bind_ok by (by apply at_index_lookup). rewrite Hthe. simpl.
      erewrite bind_ok by (by apply at_index_lookup). by rewrite Hof. }
  reflexivity.
Qed.

Lemma parseRelationship_scan_skip words (i turns : nat) w :
  vsize words < size_t_modulus - 4 ->
  (i < length words)%nat ->
  ~ relation_at words i ->
  parseRelationship_scan words (Z.of_nat i) (S turns) w
  = parseRelationship_scan words (Z.of_nat (S i)) turns w.
Proof.
  intros Hsmall Hi Hnot.
  destruct (lookup_lt_is_Some_2 words i Hi) as [a Ha].
  cbn [parseRelationship_scan].
  erewrite bind_ok by (by apply at_index_lookup).
  unfold vsize in *.
  rewrite (size_t_add_small _ 3), (size_t_add_small _ 1) by lia.
  replace (Z.of_nat i + 1) with (Z.of_nat (S i)) by lia.
  destruct (String.eqb (toLower a) "is") eqn:His; simpl;
    [|by erewrite bind_ok by reflexivity].
  apply String.eqb_eq in His.
  destruct (Z.of_nat i + 3 <? Z.of_nat (length words)) eqn:Hlen;
    [|by erewrite bind_ok by reflexivity].
  apply Z.ltb_lt in Hlen.
  destruct (lookup_lt_is_Some_2 words (i + 1)) as [b Hb]; [lia|].
  destruct (lookup_lt_is_Some_2 words (i + 3)) as [c Hc]; [lia|].
  replace (Z.of_nat (S i)) with (Z.of_nat (i + 1)) at 1 by lia.
  replace (Z.of_nat i + 3) with (Z.of_nat (i + 3)) by lia.
  destruct (String.eqb (toLower b) "the") eqn:Hthe.
  - apply String.eqb_eq in Hthe.
    destruct (String.eqb (toLower c) "of") eqn:Hof.
    + apply String.eqb_eq in Hof. exfalso. apply Hnot. by exists a, b, c.
    + erewrite bind_ok.
      2:{ erewrite bind_ok by (by apply at_index_lookup).
          rewrite Hthe, String.eqb_refl.
          erewrite bind_ok by (by apply at_index_lookup). by rewrite Hof. }
      by replace (Z.of_nat (i + 1)) with (Z.of_nat (S i)) by lia.
  - erewrite bind_ok.
    2:{ erewrite bind_ok by (by apply at_index_lookup). by rewrite Hthe. }
    by replace (Z.of_nat (i + 1)) with (Z.of_nat (S i)) by lia.
Qed.

Lemma parseRelationship_scan_none words turns : forall (i : nat) w,
  vsize words < size_t_modulus - 4 ->
  (i + turns = length words)%nat ->
  (forall k, (i <= k)%nat -> ~ relation_at words k) ->
  parseRelationship_scan words (Z.of_nat i) turns w = Ok false w.
Proof.
  induction turns as [|turns IH]; intros i w Hsmall Hlen Hnone; [done|].
  rewrite parseRelationship_scan_skip by (try done; try lia; by apply Hnone).
  apply IH; [done|lia|]. intros k Hk. apply Hnone. lia.
Qed.

Lemma parseRelationship_scan_first words turns : forall (i k : nat) w,
  vsize words < size_t_modulus - 4 ->
  (i + turns = length words)%nat ->
  (i <= k)%nat ->
  relation_at words k ->
  (forall j, (i <= j < k)%nat -> ~ relation_at words j) ->
  parseRelationship_scan words (Z.of_nat i) turns w
  = relation_body words (Z.of_nat k) w.
Proof.
  induction turns as [|turns IH]; intros i k w Hsmall Hlen Hik Hk Hfirst.
  - destruct Hk as (a & _ & _ & Ha & _). apply lookup_lt_Some in Ha. lia.
  - destruct (decide (i = k)) as [->|Hne].
    + by apply parseRelationship_scan_match.
    + rewrite parseRelationship_scan_skip
        by (try done; try lia; apply Hfirst; lia).
      apply IH; try done; try lia. intros j Hj. apply Hfirst. lia.
Qed.

(** X12. [parseRelationship] acts on the first place where
    [is the R of] stands.  With no such place it takes the first three
    words as [subject relation object], and stores nothing when there are
    fewer than three.  When the place is the first word, or when [of] is
    the last word, a read is out of bounds.  Otherwise the fact is
    [R(word before is, word after of)]. *)
Theorem parseRelationship_first_match (words : list string) (w : World) :
  vsize words < size_t_modulus - 4 ->
  ((forall k, ~ relation_at words k) ->
     parseRelationship words w
     = match words with
       | w0 :: w1 :: w2 :: _ =>
           addFact (removePunctuation (toLower w1))
             [removePunctuation (toLower w0); removePunctuation (toLower w2)] w
       | _ => Ok tt w
       end)
  /\ (relation_at words 0 -> parseRelationship words w = Fault undefined_index)
  /\ (forall k,
        relation_at words (S k) ->
        (forall j, (j <= k)%nat -> ~ relation_at words j) ->
        length words = (k + 5)%nat ->
        parseRelationship words w = Fault undefined_index)
  /\ (forall k subject relation object,
        relation_at words (S k) ->
        (forall j, (j <= k)%nat -> ~ relation_at words j) ->
        words !! k = Some subject ->
        words !! (k + 3)%nat = Some relation ->
        words !! (k + 5)%nat = Some object ->
        parseRelationship words w
        = addFact (removePunctuation (toLower relation))
            [removePunctuation (toLower subject);
             removePunctuation (toLower object)] w).
Proof.
  intros Hsmall. unfold parseRelationship. split; [|split; [|split]].
  - intros Hnone.
    erewrite bind_ok
      by (apply (parseRelationship_scan_none words _ 0%nat); auto).
    destruct words as [|w0 [|w1 [|w2 rest]]]; try done.
    assert ((3 <=? vsize (w0 :: w1 :: w2 :: rest)) = true) as ->.
    { apply Z.leb_le. rewrite !vsize_cons. pose proof (vsize_nonneg rest). lia. }
    erewrite bind_ok by (by apply (at_index_lookup _ 0%nat)).
    erewrite bind_ok by (by apply (at_index_lookup _ 1%nat)).
    erewrite bind_ok by (by apply (at_index_lookup _ 2%nat)).
    reflexivity.
  - intros Hzero. unfold bind at 1.
    rewrite (parseRelationship_scan_first words _ 0%nat 0%nat) by (auto; lia).
    unfold relation_body. change (size_t_sub (Z.of_nat 0) 1) with npos.
    unfold bind. rewrite at_index_past; [done|]. unfold npos. lia.
  - intros k Hk Hfirst Hlen. unfold bind at 1.
    rewrite (parseRelationship_scan_first words _ 0%nat (S k));
      [|done|done|lia|done|intros j Hj; apply Hfirst; lia].
    unfold relation_body. unfold vsize in Hsmall.
    rewrite size_t_sub_small, !size_t_add_small by lia.
    destruct (lookup_lt_is_Some_2 words k) as [s Hs]; [lia|].
    destruct (lookup_lt_is_Some_2 words (k + 3)) as [r Hr]; [lia|].
    replace (Z.of_nat (S k) - 1) with (Z.of_nat k) by lia.
    replace (Z.of_nat (S k) + 2) with (Z.of_nat (k + 3)) by lia.
    erewrite bind_ok by (by apply at_index_lookup).
    erewrite bind_ok by (by apply at_index_lookup).
    unfold bind. rewrite at_index_past; [done|]. unfold vsize. lia.
  - intros k s r o Hk Hfirst Hs Hr Ho. unfold bind at 1.
    rewrite (parseRelationship_scan_first words _ 0%nat (S k));
      [|done|done|lia|done|intros j Hj; apply Hfirst; lia].
    unfold relation_body.
    pose proof (lookup_lt_Some _ _ _ Ho) as Hlen. unfold vsize in Hsmall.
    rewrite size_t_sub_small, !size_t_add_small by lia.
    replace (Z.of_nat (S k) - 1) with (Z.of_nat k) by lia.
    replace (Z.of_nat (S k) + 2) with (Z.of_nat (k + 3)) by lia.
    replace (Z.of_nat (S k) + 4) with (Z.of_nat (k + 5)) by lia.
    erewrite bind_ok by (by apply at_index_lookup).
    erewrite bind_ok by (by apply at_index_lookup).
    erewrite bind_ok by (by apply at_index_lookup).
    rewrite addFact_run. unfold bind. by rewrite addFact_run.
Qed.

Lemma parseRelationship_first_match_witness :
  parseRelationship ["Old"; "John"; "IS"; "The"; "Parent"; "of"; "Mary."; "Now"]
    initial
  = addFact "parent" ["john"; "mary"] initial
  /\ parseRelationship ["Is"; "the"; "sky"] initial
     = addFact "the" ["is"; "sky"] initial.
Proof.
  destruct (parseRelationship_first_match
              ["Old"; "John"; "IS"; "The"; "Parent"; "of"; "Mary."; "Now"] initial)
    as (_ & _ & _ & Hfirst); [reflexivity|].
  destruct (parseRelationship_first_match ["Is"; "the"; "sky"] initial)
    as (Hnone & _); [reflexivity|].
  split.
  - apply (Hfirst 1%nat "John" "Parent" "Mary."); try reflexivity.
    + exists "IS", "The", "of". repeat split.
    + intros j Hj (a & b & c & Ha & His & _).
      destruct j as [|[|j]]; [| |lia]; simpl in Ha; injection Ha as <-;
        discriminate.
  - apply Hnone. intros k (a & b & c & _ & _ & _ & _ & Hc & _).
    apply lookup_lt_Some in Hc. simpl in Hc. lia.
Defined.

Lemma parseProperty_run (words : list string) w :
  parseProperty words w
  = match words with
    | w0 :: w1 :: w2 :: _ =>
        if String.eqb (toLower w1) "is"
        then addFact (removePunctuation (toLower w2))
               [removePunctuation (toLower w0)] w
        else Ok tt w
    | _ => Ok tt w
    end.
Proof.
  unfold parseProperty.
  destruct words as [|w0 [|w1 [|w2 rest]]]; try done.
  assert ((3 <=? vsize (w0 :: w1 :: w2 :: rest)) = true) as ->.
  { apply Z.leb_le. rewrite !vsize_cons. pose proof (vsize_nonneg rest). lia. }
  erewrite bind_ok.
  2:{ erewrite bind_ok by (by apply (at_index_lookup _ 1%nat)). reflexivity. }
  destruct (String.eqb (toLower w1) "is"); [|done].
  erewrite bind_ok by (by apply (at_index_lookup _ 0%nat)).
  erewrite bind_ok by (by apply (at_index_lookup _ 2%nat)).
  reflexivity.
Qed.

Lemma short_no_lives_in (words : list string) k :
  (length words < 3)%nat -> ~ lives_in_at words k.
Proof. intros Hshort (_ & _ & _ & _ & _ & _ & Hk). lia. Qed.

Lemma short_no_relation (words : list string) k :
  (length words < 4)%nat -> ~ relation_at words k.
Proof.
  intros Hshort (_ & _ & c & _ & _ & _ & _ & Hc & _).
  apply lookup_lt_Some in Hc. lia.
Qed.

(** X13. A sentence of fewer than three words stores nothing and reads
    nothing out of bounds, whatever the words are; a sentence with no word
    at all is reported as empty. *)
Theorem short_sentence_stores_nothing (text : string) (w : World) :
  vsize (split text " ") < 3 ->
  (exists out, parseText text w = Ok tt (wrote w (parsing_echo text :: out)))
  /\ (split text " " = [] ->
      parseText text w
      = Ok tt (wrote w [parsing_echo text;
                        "Empty sentence, nothing to parse." +:+ endl])).
Proof.
  intros Hshort. unfold parseText. fold (parsing_echo text).
  erewrite !bind_ok by apply print_wrote.
  set (w1 := wrote w [parsing_echo text]).
  assert (forall out, wrote w1 out = wrote w (parsing_echo text :: out)) as Hfin
    by (intros; apply wrote_wrote).
  assert (Ok tt w1 = Ok tt (wrote w [parsing_echo text])) as Hquiet by done.
  set (words := split text " ") in *.
  assert (vsize words < size_t_modulus - 4) as Hsmall
    by (unfold size_t_modulus; lia).
  assert ((length words < 3)%nat) as Hlen by (unfold vsize in Hshort; lia).
  assert (parseLivesIn words w1 = Ok tt w1) as Hlives.
  { apply (parseLivesIn_scan_none words _ 0%nat); auto.
    intros k _. by apply short_no_lives_in. }
  assert (parseRelationship words w1 = Ok tt w1) as Hrelation.
  { unfold parseRelationship.
    erewrite bind_ok.
    2:{ apply (parseRelationship_scan_none words _ 0%nat); auto.
        intros k _. apply short_no_relation. lia. }
    by destruct words as [|w0 [|w1' [|w2 rest]]]; [..|simpl in Hlen; lia]. }
  assert (parseProperty words w1 = Ok tt w1) as Hproperty.
  { rewrite parseProperty_run.
    by destruct words as [|w0 [|w1' [|w2 rest]]]; [..|simpl in Hlen; lia]. }
  split.
  - destruct (vsize words =? 0); cbv iota;
      [eexists; by rewrite print_wrote, Hfin|].
    destruct (negb _); cbv iota; [exists []; by rewrite Hlives|].
    destruct (_ && _); cbv iota; [exists []; by rewrite Hrelation|].
    destruct (negb _); cbv iota.
    { destruct (vsize words =? 3); cbv iota;
        [exists []; by rewrite Hproperty|exists []; by rewrite Hrelation]. }
    destruct (3 <=? vsize words); cbv iota; [exists []; by rewrite Hrelation|].
    eexists. by rewrite print_wrote, Hfin.
  - intros Hnone. rewrite Hnone. change (vsize [] =? 0) with true. cbv iota.
    by rewrite print_wrote, Hfin.
Qed.

Lemma short_sentence_stores_nothing_witness :
  exists out,
    parseText "Hello there" family
    = Ok tt (wrote family (parsing_echo "Hello there" :: out)).
Proof.
  destruct (short_sentence_stores_nothing "Hello there" family) as [Hquiet _].
  - reflexivity.
  - exact Hquiet.
Defined.

(** X14. A sentence of exactly three words without [lives in].  When it
    has [ is ] (and not both [is the] and [ of ]) it is read as a
    property: [word2(word0)] is stored if the middle word is [is], and
    nothing is stored, without a message, if it is not.  In every other
    case the three words are stored as [word1(word0, word2)]. *)
Theorem three_word_sentence (text a b c : string) (w : World) :
  let tl := toLower text in
  split text " " = [a; b; c] ->
  find "lives in" tl = npos ->
  parseText text w
  = (print (parsing_echo text) ;;
     if (negb (find "is the" tl =? npos) && negb (find " of " tl =? npos))
        || (find " is " tl =? npos)
     then addFact (removePunctuation (toLower b))
            [removePunctuation (toLower a); removePunctuation (toLower c)]
     else if String.eqb (toLower b) "is"
          then addFact (removePunctuation (toLower c))
                 [removePunctuation (toLower a)]
          else ret tt) w.
Proof.
  intros tl Hwords Hlives. unfold parseText. fold (parsing_echo text). fold tl.
  rewrite Hwords, Hlives. erewrite !bind_ok by apply print_wrote.
  set (w1 := wrote w [parsing_echo text]).
  change (vsize [a; b; c] =? 0) with false.
  change (negb (npos =? npos)) with false.
  change (vsize [a; b; c] =? 3) with true.
  change (3 <=? vsize [a; b; c]) with true. cbv iota.
  assert (parseRelationship [a; b; c] w1
          = addFact (removePunctuation (toLower b))
              [removePunctuation (toLower a); removePunctuation (toLower c)] w1)
    as Hrelation.
  { unfold parseRelationship.
    erewrite bind_ok.
    2:{ apply (parseRelationship_scan_none [a; b; c] _ 0%nat); [done|done|].
        intros k _. apply short_no_relation. simpl. lia. }
    change (3 <=? vsize [a; b; c]) with true. cbv iota.
    erewrite bind_ok by (by apply (at_index_lookup _ 0%nat)).
    erewrite bind_ok by (by apply (at_index_lookup _ 1%nat)).
    erewrite bind_ok by (by apply (at_index_lookup _ 2%nat)).
    reflexivity. }
  destruct (negb (find "is the" tl =? npos) && negb (find " of " tl =? npos));
    cbn [orb]; cbv iota; [done|].
  destruct (find " is " tl =? npos); cbn [negb]; cbv iota; [done|].
  rewrite parseProperty_run.
  by destruct (String.eqb (toLower b) "is").
Qed.

Lemma three_word_sentence_witness :
  exists w',
    parseText " Is John tall" family = Ok tt w' /\ facts w' = facts family.
Proof.
  eexists. split.
  - rewrite (three_word_sentence " Is John tall" "Is" "John" "tall" family);
      reflexivity.
  - reflexivity.
Defined.

(** ** The question patterns *)

Lemma relation_of_found (ql : string) :
  ssize ql < size_t_modulus ->
  find "is the " ql <> npos ->
  find_from " of" ql (find "is the " ql + 7) <> npos ->
  relation_of ql
  = removePunctuation
      (substr_text ql (find "is the " ql + 7)
         (find_from " of" ql (find "is the " ql + 7) - (find "is the " ql + 7))).
Proof.
  intros Hsmall Hthe Hof. unfold relation_of.
  pose proof (find_bounds _ _ Hthe) as [H0 Hle].
  change (ssize "is the ") with 7 in Hle.
  rewrite size_t_add_small by lia.
  assert (0 <= find "is the " ql + 7) as Hp by lia.
  pose proof (find_from_bounds " of" ql _ Hp Hof) as [Hs He].
  change (ssize " of") with 3 in He.
  assert ((find "is the " ql + 7 =? npos) = false) as ->
    by (apply Z.eqb_neq; unfold npos; lia).
  apply Z.eqb_neq in Hof. rewrite Hof. simpl.
  by rewrite size_t_sub_small by lia.
Qed.

(** X15. The [Who is the R of X?] pattern, for a question that has
    [who is the] and [of ].  The object is the first word after the first
    [of ] of the whole question; the relation is [relation_of], which is
    the text between the first [is the ] and the next [ of] when both are
    there.  The query is [relation(?, object)] and the answer lists the
    first slot of each matching fact, or says that there is none. *)
Theorem who_pattern (question : string) (w : World) :
  let ql := toLower question in
  let pos := find "of " ql in
  ssize question < size_t_modulus ->
  find "who is the" ql <> npos ->
  pos <> npos ->
  processQuery question w
  = Ok tt (wrote w (query_echo question ::
      match lookup_results (facts w) (relation_of ql)
              [wildcard; removePunctuation (read_first (text_from ql (pos + 3)))]
      with
      | [] => ["Answer: No matches found." +:+ endl]
      | results => ("Who:" +:+ endl) :: map (value_line 0) results
      end))
  /\ (find "is the " ql <> npos ->
      find_from " of" ql (find "is the " ql + 7) <> npos ->
      relation_of ql
      = removePunctuation
          (substr_text ql (find "is the " ql + 7)
             (find_from " of" ql (find "is the " ql + 7)
              - (find "is the " ql + 7)))).
Proof.
  intros ql pos Hsmall Hwho Hpos.
  assert (ssize ql = ssize question) as Hql
    by (unfold ssize, ql; by rewrite toLower_length).
  split; [|apply relation_of_found; lia].
  rewrite processQuery_run. unfold answer. fold ql. fold pos.
  apply Z.eqb_neq in Hwho, Hpos. rewrite Hwho, Hpos. simpl.
  apply Z.eqb_neq in Hpos. pose proof (find_bounds _ _ Hpos) as [H0 Hle].
  fold pos in H0, Hle. change (ssize "of ") with 3 in Hle.
  rewrite size_t_add_small by lia.
  unfold object_of. rewrite substr_text_to_end by lia.
  by rewrite (results_text_values _ _ [wildcard; _]) by (simpl; lia).
Qed.

Lemma who_pattern_witness :
  processQuery "Who is the head of state of France?" family
  = Ok tt (wrote family [query_echo "Who is the head of state of France?";
                         "Answer: No matches found." +:+ endl])
  /\ relation_of (toLower "Who is the head of state of France?") = "head"
  /\ removePunctuation (read_first (text_from
       (toLower "Who is the head of state of France?")
       (find "of " (toLower "Who is the head of state of France?") + 3)))
     = "state".
Proof.
  destruct (who_pattern "Who is the head of state of France?" family)
    as [Hrun Hrelation]; [reflexivity|discriminate|discriminate|].
  split; [exact Hrun|]. split; [|reflexivity].
  rewrite Hrelation; [reflexivity|discriminate|discriminate].
Defined.

(** X16. The [Where does X live?] pattern, for a question that has
    neither [who is the] nor [what does], has [where does ] and has [live]
    anywhere.  The subject is the first word after the first
    [where does ], the query is [lives_in(subject, ?)], and the answer
    lists the second slot of each matching fact, or says that there is
    none. *)
Theorem where_pattern (question : string) (w : World) :
  let ql := toLower question in
  let pos := find "where does " ql in
  ssize question < size_t_modulus ->
  find "who is the" ql = npos ->
  find "what does" ql = npos ->
  find "where does" ql <> npos ->
  find "live" ql <> npos ->
  pos <> npos ->
  processQuery question w
  = Ok tt (wrote w (query_echo question ::
      match lookup_results (facts w) "lives_in"
              [removePunctuation (toLower (read_first (text_from ql (pos + 11))));
               wildcard]
      with
      | [] => ["Answer: No matches found." +:+ endl]
      | results => ("Location:" +:+ endl) :: map (value_line 1) results
      end)).
Proof.
  intros ql pos Hsmall Hwho Hwhat Hwhere Hlive Hpos.
  assert (ssize ql = ssize question) as Hql
    by (unfold ssize, ql; by rewrite toLower_length).
  rewrite processQuery_run. unfold answer. fold ql. fold pos.
  apply Z.eqb_eq in Hwho, Hwhat. apply Z.eqb_neq in Hwhere, Hlive.
  rewrite Hwho, Hwhat, Hwhere, Hlive. simpl.
  pose proof (find_bounds _ _ Hpos) as [H0 Hle].
  fold pos in H0, Hle. change (ssize "where does ") with 11 in Hle.
  rewrite size_t_add_small by lia.
  rewrite substr_text_to_end by lia.
  by rewrite (results_text_values _ _ [_; wildcard]) by (simpl; lia).
Qed.

Lemma where_pattern_witness :
  processQuery "WHERE does John, live" family
  = Ok tt (wrote family [query_echo "WHERE does John, live";
                         "Location:" +:+ endl; "  - paris" +:+ endl]).
Proof.
  apply (where_pattern "WHERE does John, live" family);
    try reflexivity; discriminate.
Defined.

Lemma removePunctuation_not_wildcard word : removePunctuation word <> wildcard.
Proof.
  intros Heq. pose proof (removePunctuation_done word) as Hdone.
  rewrite Heq in Hdone. discriminate.
Qed.

Lemma read_words_loop_atoms turns : forall ss words,
  Forall (fun a => a <> wildcard) words ->
  Forall (fun a => a <> wildcard) (read_words_loop turns ss words).1.
Proof.
  induction turns as [|turns IH]; intros ss words Hwords; simpl; [done|].
  destruct (stream_extract ss) as [[word unread]|]; [|done].
  apply IH. apply Forall_app. split; [done|].
  constructor; [apply removePunctuation_not_wildcard|constructor].
Qed.

Lemma read_words_atoms text : Forall (fun a => a <> wildcard) (read_words text).
Proof. by apply read_words_loop_atoms. Qed.

Lemma tuple_matches_exact pattern fact :
  Forall (fun a => a <> wildcard) pattern ->
  tuple_matches pattern fact
  <-> Forall2 (fun a f => toLower a = toLower f) pattern fact.
Proof.
  intros Hexact. rewrite tuple_matches_Forall2.
  split; intros Hm.
  - induction Hm as [|a f pattern fact Hhead _ IH]; [constructor|].
    inversion Hexact; subst. constructor; [|by apply IH].
    by destruct Hhead.
  - eapply Forall2_impl; [exact Hm|]. intros a f Hsame. by right.
Qed.

Lemma yes_no_text_yes results :
  yes_no_text results = ["Answer: Yes" +:+ endl] <-> results <> [].
Proof. destruct results; simpl; split; try done. Qed.

(** X17. The [Is ...?] pattern, for a question that starts with [is ]
    and is not taken by an earlier pattern.  With three words or more a
    single line answers, [Yes] or [No (or unknown)], and it is [Yes]
    exactly when the store has, under the relation word, a fact whose
    atoms are the words of the pattern up to letter case: no word of a
    question can act as a wildcard.  With fewer than three words nothing
    follows the echo. *)
Theorem yes_no_pattern (question : string) (w : World) :
  let ql := toLower question in
  find "who is the" ql = npos ->
  find "what does" ql = npos ->
  find "where does" ql = npos \/ find "live" ql = npos ->
  find "is " ql = 0 ->
  match yes_no_query (read_words ql) with
  | Some (relation, pattern) =>
      exists verdict,
        processQuery question w
        = Ok tt (wrote w [query_echo question; verdict])
        /\ (verdict = "Answer: Yes" +:+ endl
            \/ verdict = "Answer: No (or unknown)" +:+ endl)
        /\ (verdict = "Answer: Yes" +:+ endl
            <-> exists fact,
                  fact ∈ stored (facts w) (toLower relation)
                  /\ Forall2 (fun a f => toLower a = toLower f) pattern fact)
  | None => processQuery question w = Ok tt (wrote w [query_echo question])
  end.
Proof.
  intros ql Hwho Hwhat Hwhere His.
  rewrite processQuery_run. unfold answer. fold ql.
  rewrite Hwho, Hwhat, His.
  change (negb (npos =? npos)) with false. change (0 =? 0) with true.
  assert ((negb (find "where does" ql =? npos) && negb (find "live" ql =? npos))
          = false) as ->.
  { destruct Hwhere as [-> | ->]; [done|]. apply andb_false_r. }
  cbv iota.
  pose proof (read_words_atoms ql) as Hatoms.
  assert (forall relation pattern,
    Forall (fun a => a <> wildcard) pattern ->
    exists verdict,
      yes_no_text (lookup_results (facts w) relation pattern) = [verdict]
      /\ (verdict = "Answer: Yes" +:+ endl
          \/ verdict = "Answer: No (or unknown)" +:+ endl)
      /\ (verdict = "Answer: Yes" +:+ endl
          <-> exists fact,
                fact ∈ stored (facts w) (toLower relation)
                /\ Forall2 (fun a f => toLower a = toLower f) pattern fact))
    as Hverdict.
  { intros relation pattern Hexact. unfold lookup_results.
    destruct (filter (tuple_matches pattern) (stored (facts w) (toLower relation)))
      as [|fact rest] eqn:Hresults; simpl.
    - eexists. split; [done|]. split; [by right|]. split; [done|].
      intros (fact & Hin & Hsame). exfalso.
      assert (fact ∈ filter (tuple_matches pattern)
                (stored (facts w) (toLower relation))) as Hfact.
      { apply list_elem_of_filter. split; [|done].
        by apply tuple_matches_exact. }
      rewrite Hresults in Hfact. by apply elem_of_nil in Hfact.
    - eexists. split; [done|]. split; [by left|]. split; [|done].
      intros _. exists fact.
      assert (fact ∈ filter (tuple_matches pattern)
                (stored (facts w) (toLower relation))) as Hfact
        by (rewrite Hresults; left).
      apply list_elem_of_filter in Hfact as [Hm Hin].
      split; [done|]. by apply tuple_matches_exact. }
  destruct (read_words ql) as [|a [|b [|c [|d rest]]]]; simpl; try done.
  - destruct (Hverdict c [b]) as (verdict & -> & Hform & Hyes).
    { inversion Hatoms as [|? ? _ Hrest]; subst.
      inversion Hrest; subst. by repeat constructor. }
    by exists verdict.
  - destruct (Hverdict c [b; d]) as (verdict & -> & Hform & Hyes).
    { inversion Hatoms as [|? ? _ Hrest]; subst.
      inversion Hrest as [|? ? Hb Hrest2]; subst.
      inversion Hrest2 as [|? ? _ Hrest3]; subst.
      inversion Hrest3; subst. by repeat constructor. }
    by exists verdict.
Qed.

Lemma yes_no_pattern_witness :
  exists verdict,
    processQuery "Is JOHN likes Pizza?" family
    = Ok tt (wrote family [query_echo "Is JOHN likes Pizza?"; verdict])
    /\ verdict = "Answer: Yes" +:+ endl.
Proof.
  pose proof (yes_no_pattern "Is JOHN likes Pizza?" family
                eq_refl eq_refl (or_introl eq_refl) eq_refl) as Hpattern.
  destruct Hpattern as (verdict & Hrun & _ & Hyes).
  exists verdict. split; [exact Hrun|].
  apply Hyes. exists ["john"; "pizza"]. split.
  - vm_compute. left.
  - repeat constructor.
Defined.

(** X18. The answer to a question does not depend on its letter case:
    two questions with the same case-folded text get the same lines after
    their echo, on any store. *)
Theorem answer_ignores_case (question1 question2 : string) (w : World) :
  toLower question1 = toLower question2 ->
  exists text,
    processQuery question1 w = Ok tt (wrote w (query_echo question1 :: text))
    /\ processQuery question2 w = Ok tt (wrote w (query_echo question2 :: text)).
Proof.
  intros Hsame. exists (answer question1 (facts w)).
  split; [apply processQuery_run|].
  rewrite processQuery_run. do 3 f_equal.
  unfold answer. by rewrite Hsame.
Qed.

Lemma answer_ignores_case_witness :
  exists text,
    processQuery "WHO IS THE PARENT OF MARY?" family
    = Ok tt (wrote family (query_echo "WHO IS THE PARENT OF MARY?" :: text))
    /\ processQuery "who is the parent of mary?" family
       = Ok tt (wrote family (query_echo "who is the parent of mary?" :: text)).
Proof.
  apply (answer_ignores_case "WHO IS THE PARENT OF MARY?"
           "who is the parent of mary?" family).
  reflexivity.
Defined.

(** X19. [what does] without a space after it.  The search for
    ["what does "] fails, [npos + 10] wraps to 9, and the rest of the
    question is taken from index 9 of the whole question, wherever
    [what does] stands; [substr] does not throw, because a question that
    has [what does] has at least nine characters. *)
Theorem what_does_without_space (question : string) (w : World) :
  let ql := toLower question in
  ssize question < size_t_modulus ->
  find "who is the" ql = npos ->
  find "what does" ql <> npos ->
  find "what does " ql = npos ->
  size_t_add npos 10 = 9
  /\ 9 <= ssize question
  /\ processQuery question w
     = Ok tt (wrote w (query_echo question ::
         match read_words (text_from ql 9) with
         | subject :: relation :: _ =>
             results_text (lookup_results (facts w) relation [subject; wildcard])
               "Answer" 1
         | _ => []
         end)).
Proof.
  intros ql Hsmall Hwho Hwhat Hspace.
  assert (ssize ql = ssize question) as Hql
    by (unfold ssize, ql; by rewrite toLower_length).
  pose proof (find_bounds _ _ Hwhat) as [H0 Hle].
  change (ssize "what does") with 9 in Hle.
  split; [reflexivity|]. split; [lia|].
  rewrite processQuery_run. unfold answer. fold ql.
  apply Z.eqb_neq in Hwhat. rewrite Hwho, Hwhat, Hspace.
  change (negb (npos =? npos)) with false. cbn [negb]. cbv iota.
  change (size_t_add npos 10) with 9.
  by rewrite substr_text_to_end by lia.
Qed.

Lemma what_does_without_space_witness :
  processQuery "So, what doesn't John like?" family
  = Ok tt (wrote family [query_echo "So, what doesn't John like?";
                         "Answer: No matches found." +:+ endl])
  /\ read_words (text_from (toLower "So, what doesn't John like?") 9)
     = ["doesn't"; "john"; "like"].
Proof.
  destruct (what_does_without_space "So, what doesn't John like?" family)
    as (_ & _ & Hrun); [reflexivity|reflexivity|discriminate|reflexivity|].
  split; [exact Hrun|reflexivity].
Defined.

Lemma results_lines_filter (results : list (list string)) (index : nat) :
  results_lines results index
  = map (value_line index)
        (filter (fun result => (index < length result)%nat) results).
Proof.
  induction results as [|result rest IH]; simpl; [done|].
  destruct (result !! index) as [value|] eqn:Hvalue.
  - pose proof (lookup_lt_Some _ _ _ Hvalue) as Hlt.
    rewrite filter_cons_True by done. simpl. rewrite IH.
    unfold value_line at 2. by rewrite (nth_lookup_Some _ _ _ _ Hvalue).
  - apply lookup_ge_None in Hvalue.
    rewrite filter_cons_False by lia. by rewrite IH.
Qed.

(** X20. [printResults] never reads past the end of a result: for any
    results and any slot it writes the message for no match when there
    are no results, and otherwise the label followed by one line for each
    result that has the slot, in order; results too short for the slot
    are passed over. *)
Theorem printResults_skips_short (results : list (list string)) (label : string)
    (index : nat) (w : World) :
  printResults results label (Z.of_nat index) w
  = Ok tt (wrote w
      match results with
      | [] => ["Answer: No matches found." +:+ endl]
      | _ => (label +:+ ":" +:+ endl)
               :: map (value_line index)
                    (filter (fun result => (index < length result)%nat) results)
      end).
Proof.
  rewrite printResults_run. unfold results_text.
  by rewrite results_lines_filter.
Qed.

(** ** The tokenizer of statements *)

Lemma read_line_no_delimiter ss :
  string_forall not_space (read_line " " ss).1 = true.
Proof.
  induction ss as [|c ss IH]; simpl; [done|].
  destruct (Ascii.eqb c " ") eqn:Hc; [done|].
  destruct (read_line " " ss) as [token unread]. simpl in *.
  unfold not_space at 1. by rewrite Hc, IH.
Qed.

Lemma erase_leading_forall p token :
  string_forall p token = true -> string_forall p (erase_leading token) = true.
Proof.
  induction token as [|c token IH]; simpl; [done|].
  intros [Hc Hrest]%andb_true_iff.
  destruct (is_trim_char c); [by apply IH|]. simpl. by rewrite Hc, Hrest.
Qed.

Lemma erase_trailing_forall p token :
  string_forall p token = true -> string_forall p (erase_trailing token) = true.
Proof.
  induction token as [|c token IH]; simpl; [done|].
  intros [Hc Hrest]%andb_true_iff. specialize (IH Hrest).
  destruct (erase_trailing token) as [|d kept].
  - destruct (is_trim_char c); [done|]. simpl. by rewrite Hc.
  - simpl in *. by rewrite Hc, IH.
Qed.

Lemma split_loop_tokens turns : forall ss tokens,
  Forall (fun t => t <> EmptyString /\ string_forall not_space t = true) tokens ->
  Forall (fun t => t <> EmptyString /\ string_forall not_space t = true)
         (split_loop turns ss " " tokens).1.
Proof.
  induction turns as [|turns IH]; intros ss tokens Htokens; simpl; [done|].
  destruct (getline ss " ") as [[token unread]|] eqn:Hline; [|done].
  apply IH.
  destruct (String.eqb (erase_trailing (erase_leading token)) "") eqn:Hempty;
    [done|].
  apply String.eqb_neq in Hempty.
  apply Forall_app. split; [done|]. constructor; [|constructor].
  split; [done|].
  apply erase_trailing_forall, erase_leading_forall.
  destruct ss as [|c ss]; [done|]. simpl in Hline.
  pose proof (read_line_no_delimiter (String c ss)) as Hno. simpl in Hno.
  destruct (Ascii.eqb c " ") eqn:Hc.
  - by simplify_eq.
  - destruct (read_line " " ss) as [t u]. by simplify_eq.
Qed.

(** X21. [split] on the space never yields an empty token and no token
    contains a space: runs of spaces and tokens of white space alone are
    dropped, whatever the sentence. *)
Theorem split_tokens (str : string) :
  Forall (fun token => token <> EmptyString
                       /\ string_forall not_space token = true)
         (split str " ").
Proof. by apply split_loop_tokens. Qed.

Lemma read_line_forall p delimiter ss :
  string_forall p ss = true ->
  string_forall p (read_line delimiter ss).1 = true
  /\ string_forall p (read_line delimiter ss).2 = true.
Proof.
  induction ss as [|c ss IH]; simpl; [done|].
  intros [Hc Hrest]%andb_true_iff. specialize (IH Hrest).
  destruct (Ascii.eqb c delimiter); [done|].
  destruct (read_line delimiter ss) as [token unread]. simpl in *.
  by rewrite Hc.
Qed.

Lemma erase_leading_blank token :
  string_forall is_trim_char token = true -> erase_leading token = EmptyString.
Proof.
  induction token as [|c token IH]; simpl; [done|].
  intros [Hc Hrest]%andb_true_iff. rewrite Hc. by apply IH.
Qed.

Lemma split_loop_blank turns delimiter : forall ss tokens,
  string_forall is_trim_char ss = true ->
  (split_loop turns ss delimiter tokens).1 = tokens.
Proof.
  induction turns as [|turns IH]; intros ss tokens Hblank; simpl; [done|].
  destruct ss as [|c ss]; [done|].
  pose proof (read_line_forall is_trim_char delimiter (String c ss) Hblank)
    as [Htoken Hunread].
  unfold getline.
  destruct (read_line delimiter (String c ss)) as [token unread]. simpl in *.
  rewrite (erase_leading_blank token Htoken). simpl. by apply IH.
Qed.

(** X22. A sentence made of spaces, tabs and line breaks only has no
    word: [parseText] reports it as empty and stores nothing. *)
Theorem blank_sentence_is_empty (text : string) (w : World) :
  string_forall is_trim_char text = true ->
  split text " " = []
  /\ parseText text w
     = Ok tt (wrote w [parsing_echo text;
                       "Empty sentence, nothing to parse." +:+ endl]).
Proof.
  intros Hblank.
  assert (split text " " = []) as Hnone by (by apply split_loop_blank).
  split; [done|].
  unfold parseText. fold (parsing_echo text). rewrite Hnone.
  erewrite bind_ok by apply print_wrote.
  change (vsize [] =? 0) with true. cbv iota.
  by rewrite print_wrote, wrote_wrote.
Qed.

Lemma blank_sentence_is_empty_witness :
  split "   " " " = []
  /\ parseText "   " family
     = Ok tt (wrote family [parsing_echo "   ";
                            "Empty sentence, nothing to parse." +:+ endl]).
Proof. apply (blank_sentence_is_empty "   " family). reflexivity. Defined.

(** ** The program *)

(** X23. [main] runs to its end and returns 0: none of its statements
    reaches an out-of-bounds read.  The statements store twelve facts
    under five predicates.  Of the six questions, four get the stored
    answer; [What does John like?] asks for [like], not the stored
    [likes], and [Is John the parent of Tom?] asks for [the(john,
    parent)], so both get a negative answer although the facts meant are
    in the store.  The three direct queries list their results. *)
Theorem main_runs :
  (exists w, main initial = Ok 0 w /\ facts w = main_store)
  /\ (exists w, main_statements initial = Ok tt w /\ facts w = main_store)
  /\ main_questions (mkWorld main_store [])
     = Ok tt (mkWorld main_store
         [query_echo "Who is the parent of Mary?";
          "Who:" +:+ endl; "  - john" +:+ endl;
          query_echo "What does John like?";
          "Answer: No matches found." +:+ endl;
          query_echo "Where does Mary live?";
          "Location:" +:+ endl; "  - london" +:+ endl;
          query_echo "Is Alice tall?";
          "Answer: Yes" +:+ endl;
          query_echo "Is John the parent of Tom?";
          "Answer: No (or unknown)" +:+ endl;
          query_echo "Who is the parent of Susan?";
          "Who:" +:+ endl; "  - mary" +:+ endl])
  /\ main_direct_queries (mkWorld main_store [])
     = Ok tt (mkWorld main_store
         [endl +:+ "Query: parent(?, mary) - Find all parents of Mary" +:+ endl;
          "  Result: john" +:+ endl;
          endl +:+ "Query: parent(john, ?) - Find all children of John" +:+ endl;
          "  Result: mary" +:+ endl; "  Result: tom" +:+ endl;
          endl +:+ "Query: lives_in(?, ?) - Find all living arrangements" +:+ endl;
          "  Result: john lives in paris" +:+ endl;
          "  Result: mary lives in london" +:+ endl;
          "  Result: susan lives in tokyo" +:+ endl]).
Proof.
  split; [|split; [|split]].
  - eexists. split; [vm_compute; reflexivity|]. vm_compute. reflexivity.
  - eexists. split; [vm_compute; reflexivity|]. vm_compute. reflexivity.
  - vm_compute. reflexivity.
  - vm_compute. reflexivity.
Qed.

Lemma main_print_first_run (results : list (list string)) : forall w,
  Forall (fun result => length result = 2%nat) results ->
  main_print_first results w
  = Ok tt (wrote w (map (fun result =>
             "  Result: " +:+ nth 0 result EmptyString +:+ endl) results)).
Proof.
  induction results as [|result rest IH]; intros w Harity; simpl.
  - unfold ret. by rewrite wrote_nil.
  - inversion Harity as [|? ? Hlen Hrest]; subst.
    destruct result as [|r0 [|r1 [|r2 more]]]; try done.
    erewrite bind_ok by (by apply (at_index_lookup _ 0%nat)).
    erewrite bind_ok by apply print_wrote.
    by rewrite IH, wrote_wrote.
Qed.

Lemma main_print_second_run (results : list (list string)) : forall w,
  Forall (fun result => length result = 2%nat) results ->
  main_print_second results w
  = Ok tt (wrote w (map (fun result =>
             "  Result: " +:+ nth 1 result EmptyString +:+ endl) results)).
Proof.
  induction results as [|result rest IH]; intros w Harity; simpl.
  - unfold ret. by rewrite wrote_nil.
  - inversion Harity as [|? ? Hlen Hrest]; subst.
    destruct result as [|r0 [|r1 [|r2 more]]]; try done.
    erewrite bind_ok by (by apply (at_index_lookup _ 1%nat)).
    erewrite bind_ok by apply print_wrote.
    by rewrite IH, wrote_wrote.
Qed.

Lemma main_print_both_run (results : list (list string)) : forall w,
  Forall (fun result => length result = 2%nat) results ->
  main_print_both results w
  = Ok tt (wrote w (map (fun result =>
             "  Result: " +:+ nth 0 result EmptyString +:+ " lives in "
               +:+ nth 1 result EmptyString +:+ endl) results)).
Proof.
  induction results as [|result rest IH]; intros w Harity; simpl.
  - unfold ret. by rewrite wrote_nil.
  - inversion Harity as [|? ? Hlen Hrest]; subst.
    destruct result as [|r0 [|r1 [|r2 more]]]; try done.
    erewrite bind_ok by (by apply (at_index_lookup _ 0%nat)).
    erewrite bind_ok by (by apply (at_index_lookup _ 1%nat)).
    erewrite bind_ok by apply print_wrote.
    by rewrite IH, wrote_wrote.
Qed.

(** X24. The loops of [main] that print the results of its direct
    queries read [result[0]] and [result[1]] without a guard, and the
    reads are in bounds on every store: a query with a pattern of two
    atoms returns only facts of two atoms.  On any store the three direct
    queries end well and leave the store as it was. *)
Theorem main_direct_queries_safe (w : World) :
  exists out, main_direct_queries w = Ok tt (wrote w out).
Proof.
  unfold main_direct_queries.
  assert (forall relation pattern,
    length pattern = 2%nat ->
    Forall (fun result => length result = 2%nat)
           (filter (tuple_matches pattern) (stored (facts w) (toLower relation))))
    as Harity.
  { intros relation pattern Hlen.
    eapply Forall_impl; [apply (lookup_results_arity (facts w) relation pattern)|].
    simpl. intros result ->. done. }
  erewrite bind_ok by apply print_wrote.
  erewrite bind_ok by apply query_run.
  erewrite bind_ok by (by apply main_print_first_run, Harity).
  erewrite bind_ok by apply print_wrote.
  erewrite bind_ok by apply query_run.
  erewrite bind_ok by (by apply main_print_second_run, Harity).
  erewrite bind_ok by apply print_wrote.
  erewrite bind_ok by apply query_run.
  rewrite main_print_both_run by (by apply Harity).
  eexists. by rewrite !wrote_wrote.
Qed.

(** ** The helper [trim] *)

Lemma find_first_not_of_blank suffix : forall i,
  string_forall is_trim_char suffix = true ->
  find_first_not_of_here suffix i = npos.
Proof.
  induction suffix as [|c suffix IH]; intros i; simpl; [done|].
  intros [Hc Hrest]%andb_true_iff. rewrite Hc. by apply IH.
Qed.

Lemma find_first_not_of_found suffix : forall i,
  string_forall is_trim_char suffix = false ->
  i <= find_first_not_of_here suffix i < i + ssize suffix
  /\ drop_chars (Z.to_nat (find_first_not_of_here suffix i - i)) suffix
     = Some (erase_leading suffix)
  /\ erase_leading suffix <> EmptyString.
Proof.
  unfold ssize.
  induction suffix as [|c suffix IH]; intros i; simpl; [done|].
  destruct (is_trim_char c) eqn:Hc; simpl.
  - intros Hrest. destruct (IH (i + 1) Hrest) as (Hrange & Hdrop & Hne).
    split; [lia|]. split; [|done].
    replace (Z.to_nat (find_first_not_of_here suffix (i + 1) - i))
      with (S (Z.to_nat (find_first_not_of_here suffix (i + 1) - (i + 1))))
      by lia.
    by rewrite drop_chars_S.
  - intros _. split; [lia|]. by rewrite Z.sub_diag.
Qed.

Lemma find_last_not_of_length suffix : forall i last,
  find_last_not_of_here suffix i last
  = match erase_trailing suffix with
    | EmptyString => last
    | kept => i + ssize kept - 1
    end.
Proof.
  unfold ssize.
  induction suffix as [|c suffix IH]; intros i last; simpl; [done|].
  rewrite IH. destruct (erase_trailing suffix) as [|d kept].
  - destruct (is_trim_char c); [done|]. simpl. lia.
  - simpl String.length. lia.
Qed.

Lemma find_last_not_of_leading suffix : forall i last,
  find_last_not_of_here suffix i last
  = find_last_not_of_here (erase_leading suffix)
      (i + ssize suffix - ssize (erase_leading suffix)) last.
Proof.
  unfold ssize.
  induction suffix as [|c suffix IH]; intros i last; simpl.
  - done.
  - destruct (is_trim_char c) eqn:Hc.
    + rewrite IH. f_equal. lia.
    + simpl. rewrite Hc. f_equal; lia.
Qed.

Lemma erase_trailing_prefix token :
  (String.length (erase_trailing token) <= String.length token)%nat
  /\ take_chars (String.length (erase_trailing token)) token
     = erase_trailing token.
Proof.
  induction token as [|c token [IHlen IHtake]]; simpl; [done|].
  destruct (erase_trailing token) as [|d kept] eqn:Hkept.
  - destruct (is_trim_char c); simpl; [split; [lia|done]|].
    split; [lia|]. by destruct token.
  - simpl in *. split; [lia|]. by rewrite IHtake.
Qed.

Lemma erase_trailing_keeps_head c token :
  is_trim_char c = false -> erase_trailing (String c token) <> EmptyString.
Proof.
  intros Hc. simpl. destruct (erase_trailing token); [by rewrite Hc|done].
Qed.

(** X25. [trim] never throws, and it removes exactly the white space at
    both ends: its value is the string with its leading and then its
    trailing blanks erased, the same trimming that [split] applies to
    each token; a string of blanks alone gives the empty string. *)
Theorem trim_erases_both_ends (str : string) (w : World) :
  ssize str < size_t_modulus - 1 ->
  trim str w = Ok (erase_trailing (erase_leading str)) w
  /\ (string_forall is_trim_char str = true -> trim str w = Ok EmptyString w).
Proof.
  intros Hsmall. unfold trim, find_first_not_of, find_last_not_of.
  destruct (string_forall is_trim_char str) eqn:Hblank.
  - rewrite find_first_not_of_blank by done.
    change (npos =? npos) with true. cbv iota.
    rewrite erase_leading_blank by done. done.
  - split; [|done].
    destruct (find_first_not_of_found str 0 Hblank) as (Hrange & Hdrop & Hne).
    set (start := find_first_not_of_here str 0) in *.
    rewrite Z.sub_0_r in Hdrop.
    assert ((start =? npos) = false) as ->
      by (apply Z.eqb_neq; unfold npos; lia).
    rewrite find_last_not_of_leading, find_last_not_of_length.
    pose proof (drop_chars_length _ _ _ Hdrop) as Hlen.
    pose proof (erase_trailing_prefix (erase_leading str)) as [Hshort Htake].
    destruct (erase_leading str) as [|c token] eqn:Hlead; [done|].
    assert (is_trim_char c = false) as Hc.
    { clear -Hlead. induction str as [|d str IH]; simpl in Hlead; [done|].
      destruct (is_trim_char d) eqn:Hd; [by apply IH|]. by simplify_eq. }
    pose proof (erase_trailing_keeps_head c token Hc) as Hkept.
    destruct (erase_trailing (String c token)) as [|d kept] eqn:Htrail; [done|].
    unfold ssize in *.
    assert (0 + Z.of_nat (String.length str)
              - Z.of_nat (String.length (String c token)) = start) as -> by lia.
    rewrite size_t_sub_small by (simpl String.length in *; lia).
    rewrite size_t_add_small by (simpl String.length in *; lia).
    unfold substr.
    assert ((ssize str <? start) = false) as ->
      by (apply Z.ltb_ge; unfold ssize; lia).
    rewrite Hdrop. unfold ret. f_equal.
    etrans; [|exact Htake]. f_equal. unfold ssize.
    simpl String.length in *. lia.
Qed.

Lemma trim_erases_both_ends_witness :
  trim "  John Smith   " initial = Ok "John Smith" initial.
Proof.
  apply (trim_erases_both_ends "  John Smith   " initial). reflexivity.
Defined.
